(** * DASA insumos: queue, stack, searches and sorts of [dasa_insumos_ds.py]

    A shallow embedding of the in-memory toolkit of
    [src/PY/dasa_insumos_ds.py]: the record [Insumo], the containers
    [FilaConsumo] and [PilhaConsultas], the searches [busca_sequencial] and
    [busca_binaria], and the sorts [merge_sort] (with [_merge]) and
    [quick_sort].

    Conventions of the embedding.
    - A Python [str] is the [string] of the bytes of its UTF-8 encoding:
      equality of [str] is equality of these strings, and the order of
      Python on [str], by code points, is their lexicographic order by
      bytes.  [str.lower] belongs to the interpreter, with its table of
      Unicode case mappings: it is a parameter of the model ([StrLower]),
      of which only the behaviour on ASCII strings is used ([LowerSpec]).
    - A [datetime] is an integer count of ticks ([Z]).
    - An exception is an explicit outcome ([Raise]); nothing is hidden in a
      default value.
    - [datetime.now()] and the global random generator are explicit inputs:
      the clock reading is an argument of the registering operations, the
      generator is a state [Random] threaded through [quick_sort].
    - Integers are unbounded, as in Python; the limits of the interpreter
      (memory, depth of recursion) are not part of the model. *)

From Equations Require Import Equations.
From Stdlib Require Import String Ascii.
From Stdlib Require Import List Arith ZArith Lia Bool.
From Stdlib Require Import Permutation Sorted.
Import ListNotations.

(** ** Domain model *)

Definition datetime := Z.

(** [@dataclass(frozen=True) class Insumo] *)
Record Insumo := mkInsumo {
  insumo : string;
  quantidade : Z;
  exame : string;
  validade : option datetime
}.

(** Outcome of a Python call: a value, or a raised exception. *)
Inductive exn := IndexError.

Inductive py (A : Type) :=
| Ret (a : A)
| Raise (e : exn).
Arguments Ret {A} a.
Arguments Raise {A} e.

Definition bind {A B} (m : py A) (f : A -> py B) : py B :=
  match m with
  | Ret a => f a
  | Raise e => Raise e
  end.

Notation "x <- m ;; k" := (bind m (fun x => k))
  (at level 61, m at next level, right associativity).

(** ** Keys

    The sorts receive [key: Callable[[Insumo], Any]] and compare keys with
    the Python operators [<=], [<], [==] and [>].  [KeyOps] carries the four
    operators of the key type; [KeyTotal] says that they are the operators of
    one total (pre)order, which is what [int], [str] and [datetime] provide. *)

Class KeyOps (K : Type) := {
  key_le : K -> K -> bool;
  key_lt : K -> K -> bool;
  key_eq : K -> K -> bool;
  key_gt : K -> K -> bool
}.

Class KeyTotal (K : Type) `{KeyOps K} : Prop := {
  key_le_total : forall a b, key_le a b = true \/ key_le b a = true;
  key_le_trans : forall a b c,
      key_le a b = true -> key_le b c = true -> key_le a c = true;
  key_lt_spec : forall a b, key_lt a b = negb (key_le b a);
  key_gt_spec : forall a b, key_gt a b = key_lt b a;
  key_eq_spec : forall a b, key_eq a b = key_le a b && key_le b a
}.

#[export] Instance Z_KeyOps : KeyOps Z :=
  {| key_le := Z.leb; key_lt := Z.ltb; key_eq := Z.eqb; key_gt := Z.gtb |}.

#[export] Instance string_KeyOps : KeyOps string :=
  {| key_le := String.leb;
     key_lt := String.ltb;
     key_eq := String.eqb;
     key_gt := fun a b => String.ltb b a |}.

(** ** Sorting *)

(** The random generator.  [tape] is the unbounded supply of raw draws of the
    generator and [cursor] the number of draws consumed so far;
    [randbelow r n] is [random._randbelow(n)]: an index below [n] and the
    advanced generator.  Every sequence of in-range draws is produced by some
    tape. *)
Record Random := mkRandom {
  tape : nat -> nat;
  cursor : nat
}.

Definition randbelow (r : Random) (n : nat) : nat * Random :=
  (tape r (cursor r) mod n, mkRandom (tape r) (S (cursor r))).

(** [random.choice(seq)] is [seq[self._randbelow(len(seq))]], for the
    non-empty sequence [x :: l]. *)
Definition choice (r : Random) (x : Insumo) (l : list Insumo)
  : Insumo * Random :=
  let (i, r') := randbelow r (length (x :: l)) in
  (nth i (x :: l) x, r').

Section Sorting.
Context {K : Type} `{KeyOps K}.
Variable key : Insumo -> K.

(** The loop of [_merge].  [a] and [b] are the unread suffixes [a[i:]] and
    [b[j:]]; [out] is the output list built so far.  When one suffix is
    empty the loop ends and both suffixes are appended to [out]. *)
Equations? _merge_loop (a b out : list Insumo) : list Insumo
  by wf (length a + length b) lt :=
  _merge_loop (x :: a') (y :: b') out with key_le (key x) (key y) => {
    | true := _merge_loop a' (y :: b') (out ++ [x]);
    | false := _merge_loop (x :: a') b' (out ++ [y]) };
  _merge_loop a b out := out ++ a ++ b.
Proof. all: simpl; lia. Qed.

Definition _merge (a b : list Insumo) : list Insumo :=
  _merge_loop a b [].

(** [merge_sort]: [itens[:mid]] is [firstn mid itens], [itens[mid:]] is
    [skipn mid itens]. *)
Equations? merge_sort (itens : list Insumo) : list Insumo
  by wf (length itens) lt :=
  merge_sort itens with le_lt_dec (length itens) 1 => {
    | left _ := itens;
    | right _ :=
        let mid := length itens / 2 in
        let esquerda := merge_sort (firstn mid itens) in
        let direita := merge_sort (skipn mid itens) in
        _merge esquerda direita }.
Proof.
  all: assert (Hmid : 0 < length itens / 2 < length itens)
    by (split; [apply Nat.div_str_pos | apply Nat.div_lt]; lia).
  all: change (length itens / 2) with mid in Hmid.
  - rewrite length_firstn. lia.
  - rewrite length_skipn. lia.
Qed.

(** [quick_sort].  The pivot is the key of a random element; the three
    comprehensions are three [filter] passes over [itens]; the lesser part
    is sorted first and the greater part next, each drawing from the
    generator left by the call before it.  The result is the sorted list
    and the generator after the call. *)
Context {HT : KeyTotal K}.

Equations? quick_sort (itens : list Insumo) (rnd : Random)
  : list Insumo * Random by wf (length itens) lt :=
  quick_sort [] rnd := ([], rnd);
  quick_sort [x] rnd := ([x], rnd);
  quick_sort (x :: y :: t) rnd :=
    let itens := x :: y :: t in
    let sorteio := choice rnd x (y :: t) in
    let pivot := key (fst sorteio) in
    let menores := filter (fun x => key_lt (key x) pivot) itens in
    let iguais := filter (fun x => key_eq (key x) pivot) itens in
    let maiores := filter (fun x => key_gt (key x) pivot) itens in
    let r1 := quick_sort menores (snd sorteio) in
    let r2 := quick_sort maiores (snd r1) in
    (fst r1 ++ iguais ++ fst r2, snd r2).
Proof.
  all: pose (p := fst (choice rnd x (y :: t))).
  all: assert (Hin : In p (x :: y :: t))
    by (unfold p, choice, randbelow; cbn [fst];
        apply nth_In; apply Nat.mod_upper_bound; discriminate).
  all: assert (Hdrop : forall (f : Insumo -> bool) s,
                  In p s -> f p = false ->
                  length (filter f s) < length s)
    by (intros f s; induction s as [|z s IH]; intros Hp Hf;
        [ destruct Hp
        | cbn [filter length]; destruct Hp as [->|Hp];
          [ rewrite Hf; pose proof (filter_length_le f s); lia
          | specialize (IH Hp Hf); destruct (f z); cbn [length]; lia ] ]).
  all: assert (Hle : key_le (key p) (key p) = true)
    by (destruct (key_le_total (key p) (key p)); assumption).
  - change (length (filter (fun x => key_lt (key x) (key p)) (x :: y :: t))
            < length (x :: y :: t)).
    apply Hdrop; [exact Hin|].
    rewrite key_lt_spec, Hle. reflexivity.
  - change (length (filter (fun x => key_gt (key x) (key p)) (x :: y :: t))
            < length (x :: y :: t)).
    apply Hdrop; [exact Hin|].
    rewrite key_gt_spec, key_lt_spec, Hle. reflexivity.
Qed.

End Sorting.

(** ** Strings and [str.lower] *)

(** Lowering of one ASCII character: [A]..[Z] (codes 65..90) go to
    [a]..[z]; every other character is kept. *)
Definition lower_ascii (c : ascii) : ascii :=
  let n := nat_of_ascii c in
  if (65 <=? n) && (n <=? 90) then ascii_of_nat (n + 32) else c.

(** Lowering of the ASCII letters of a string, byte by byte. *)
Fixpoint ascii_lower (s : string) : string :=
  match s with
  | EmptyString => EmptyString
  | String c s' => String (lower_ascii c) (ascii_lower s')
  end.

(** A string of ASCII characters only: every byte is below 128. *)
Fixpoint is_ascii (s : string) : bool :=
  match s with
  | EmptyString => true
  | String c s' => (nat_of_ascii c <? 128) && is_ascii s'
  end.

(** [str.lower].  The function is the interpreter's, not the repository's:
    the model takes it as a parameter, so that what is proved of the
    searches holds for the [str.lower] of Python whatever its table of case
    mappings. *)
Class StrLower := { lower : string -> string }.

(** What is assumed of [str.lower] where the case of letters matters: on a
    string of ASCII characters it lowers the letters [A]..[Z] and keeps
    every other character. *)
Class LowerSpec {L : StrLower} : Prop := {
  lower_of_ascii : forall s, is_ascii s = true -> lower s = ascii_lower s
}.

(** An instance to compute with: the lowering of the ASCII letters and of
    the capital letters of the Latin-1 supplement (U+00C0 to U+00DE but the
    sign U+00D7), which UTF-8 writes as the byte 195 followed by a byte from
    128 to 158 (but 151); the small letter is 32 further.  Every other
    character is kept, where the table of Python has more. *)
Definition lower_c3 (d : ascii) : ascii :=
  let n := nat_of_ascii d in
  if (128 <=? n) && (n <=? 158) && negb (n =? 151)
  then ascii_of_nat (n + 32) else d.

Fixpoint lower_latin1 (s : string) : string :=
  match s with
  | EmptyString => EmptyString
  | String c s' =>
      if nat_of_ascii c =? 195 then
        match s' with
        | EmptyString => String c EmptyString
        | String d s'' => String c (String (lower_c3 d) (lower_latin1 s''))
        end
      else String (lower_ascii c) (lower_latin1 s')
  end.

#[export] Instance latin1_StrLower : StrLower := {| lower := lower_latin1 |}.

(** ** Searches *)

Section Buscas.
Context {L : StrLower}.

(** [busca_sequencial]: the [for] loop over [insumos], leaving at the first
    item whose lowered name equals the lowered target. *)
Fixpoint busca_sequencial (insumos : list Insumo) (nome : string)
  : option Insumo :=
  match insumos with
  | [] => None
  | item :: resto =>
      if String.eqb (lower (insumo item)) (lower nome) then Some item
      else busca_sequencial resto nome
  end.

(** [seq[i]] on a Python list: a negative index counts from the end, and an
    index outside [-len, len) raises [IndexError]. *)
Definition getitem (l : list Insumo) (i : Z) : py Insumo :=
  let n := Z.of_nat (length l) in
  let j := if (i <? 0)%Z then (i + n)%Z else i in
  if (0 <=? j)%Z && (j <? n)%Z then
    match nth_error l (Z.to_nat j) with
    | Some x => Ret x
    | None => Raise IndexError
    end
  else Raise IndexError.

(** What one pass through the body of the [while] of [busca_binaria] does:
    it leaves the function with a result, or goes on with new bounds. *)
Inductive iter :=
| Return (r : option Insumo)
| Continue (lo hi : Z).

(** The body of the [while] loop, for bounds [lo], [hi] and the target
    [nome] already lowered.  [//] is floor division, as [Z.div]. *)
Definition busca_binaria_body (insumos_ordenados : list Insumo)
  (nome : string) (lo hi : Z) : py iter :=
  let mid := ((lo + hi) / 2)%Z in
  item <- getitem insumos_ordenados mid ;;
  let atual := lower (insumo item) in
  if String.eqb atual nome then Ret (Return (Some item))
  else if String.ltb atual nome then Ret (Continue (mid + 1)%Z hi)
  else Ret (Continue lo (mid - 1)%Z).

(** [while lo <= hi: ...; return None]. *)
Equations? busca_binaria_loop (insumos_ordenados : list Insumo)
  (nome : string) (lo hi : Z) : py (option Insumo)
  by wf (Z.to_nat (hi - lo + 1)) lt :=
  busca_binaria_loop l nome lo hi with Z_le_gt_dec lo hi => {
    | right _ := Ret None;
    | left Hle
        with Equations.Prop.Logic.inspect
               (busca_binaria_body l nome lo hi) => {
        | exist _ (Raise e) _ := Raise e;
        | exist _ (Ret (Return r)) _ := Ret r;
        | exist _ (Ret (Continue lo' hi')) Hbody :=
            busca_binaria_loop l nome lo' hi' } }.
Proof.
  unfold busca_binaria_body in Hbody.
  destruct (getitem l ((lo + hi) / 2)) as [item|e]; cbn [bind] in Hbody;
    [|discriminate].
  destruct (String.eqb _ _); [discriminate|].
  assert (Hmid : (lo <= (lo + hi) / 2 <= hi)%Z)
    by (split; [apply Z.div_le_lower_bound | apply Z.div_le_upper_bound];
        lia).
  destruct (String.ltb _ _); injection Hbody as <- <-; lia.
Qed.

Definition busca_binaria (insumos_ordenados : list Insumo) (nome : string)
  : py (option Insumo) :=
  let lo := 0%Z in
  let hi := (Z.of_nat (length insumos_ordenados) - 1)%Z in
  let nome := lower nome in
  busca_binaria_loop insumos_ordenados nome lo hi.

(** The [while] loop of [busca_binaria] run for at most [n] passes through
    its body: the outcome of the loop when it ends within [n] passes, and
    nothing when a further pass is due. *)
Fixpoint busca_binaria_passes (n : nat) (insumos_ordenados : list Insumo)
  (nome : string) (lo hi : Z) : option (py (option Insumo)) :=
  if (lo <=? hi)%Z then
    match n with
    | 0 => None
    | S n' =>
        match busca_binaria_body insumos_ordenados nome lo hi with
        | Raise e => Some (Raise e)
        | Ret (Return r) => Some (Ret r)
        | Ret (Continue lo' hi') =>
            busca_binaria_passes n' insumos_ordenados nome lo' hi'
        end
    end
  else Some (Ret None).

End Buscas.

(** ** Queue and stack *)

(** [(timestamp, Insumo)] *)
Definition entrada := (datetime * Insumo)%type.

(** [bool(seq)] of a Python sequence: true when it is not empty. *)
Definition truthy {A} (l : list A) : bool :=
  negb (Nat.eqb (length l) 0).

Module FilaConsumo.

(** The object: its only attribute is the deque [_q], head first. *)
Record t := mk { _q : list entrada }.

(** [__init__] *)
Definition init : t := mk [].

(** [deque.append] *)
Definition append (q : list entrada) (e : entrada) : list entrada :=
  q ++ [e].

(** [deque.popleft]: raises [IndexError] on an empty deque. *)
Definition popleft (q : list entrada) : py (entrada * list entrada) :=
  match q with
  | [] => Raise IndexError
  | e :: q' => Ret (e, q')
  end.

(** [registrar_consumo]; [agora] is the reading of [datetime.now()]. *)
Definition registrar_consumo (self : t) (agora : datetime) (item : Insumo)
  : t :=
  mk (append (_q self) (agora, item)).

(** [proximo]: [self._q.popleft() if self._q else None]. *)
Definition proximo (self : t) : py (option entrada * t) :=
  if truthy (_q self) then
    r <- popleft (_q self) ;; Ret (Some (fst r), mk (snd r))
  else Ret (None, self).

(** [__len__] *)
Definition len (self : t) : nat := length (_q self).

(** [__iter__] *)
Definition iter (self : t) : list entrada := _q self.

(** Call sequences: register the items of [es] in order, each with its own
    clock reading; call [proximo] [n] times and collect what it returns. *)
Definition registrar_todos (self : t) (es : list entrada) : t :=
  fold_left (fun f e => registrar_consumo f (fst e) (snd e)) es self.

Fixpoint proximos (n : nat) (self : t) : py (list (option entrada) * t) :=
  match n with
  | 0 => Ret ([], self)
  | S n' =>
      r <- proximo self ;;
      rs <- proximos n' (snd r) ;;
      Ret (fst r :: fst rs, snd rs)
  end.

End FilaConsumo.

Module PilhaConsultas.

(** The object: its only attribute is the list [_stack], bottom first. *)
Record t := mk { _stack : list entrada }.

(** [__init__] *)
Definition init : t := mk [].

(** [list.append] *)
Definition append (s : list entrada) (e : entrada) : list entrada :=
  s ++ [e].

(** [list.pop()]: removes and returns the last element; raises
    [IndexError] on an empty list. *)
Definition pop (s : list entrada) : py (entrada * list entrada) :=
  match rev s with
  | [] => Raise IndexError
  | e :: r => Ret (e, rev r)
  end.

(** [consultar]; [agora] is the reading of [datetime.now()]. *)
Definition consultar (self : t) (agora : datetime) (item : Insumo) : t :=
  mk (append (_stack self) (agora, item)).

(** [ultimo]: [self._stack.pop() if self._stack else None]. *)
Definition ultimo (self : t) : py (option entrada * t) :=
  if truthy (_stack self) then
    r <- pop (_stack self) ;; Ret (Some (fst r), mk (snd r))
  else Ret (None, self).

(** [__len__] *)
Definition len (self : t) : nat := length (_stack self).

(** [__iter__] *)
Definition iter (self : t) : list entrada := _stack self.

(** Call sequences: consult the items of [es] in order; call [ultimo] [n]
    times and collect what it returns. *)
Definition consultar_todos (self : t) (es : list entrada) : t :=
  fold_left (fun p e => consultar p (fst e) (snd e)) es self.

Fixpoint ultimos (n : nat) (self : t) : py (list (option entrada) * t) :=
  match n with
  | 0 => Ret ([], self)
  | S n' =>
      r <- ultimo self ;;
      rs <- ultimos n' (snd r) ;;
      Ret (fst r :: fst rs, snd rs)
  end.

End PilhaConsultas.

(** ** Simulated data *)

Definition EXAMES : list string := [
  "Hemograma completo";
  "Cultura microbiológica";
  "Glicemia em jejum";
  "PCR";
  "Sorologia (HIV)"
]%string.

Definition INSUMOS : list string := [
  "Agulha 25x7";
  "Swab estéril";
  "Seringa 5ml";
  "Tubo EDTA 4ml";
  "Luva nitrílica M";
  "Luva nitrílica G";
  "Tubo Citrato 3,2%"
]%string.

(** [random.choice(seq)] for a sequence of any element type: it raises
    [IndexError] on an empty sequence, and otherwise reads the element at
    the index drawn below [len(seq)]. *)
Definition random_choice {A : Type} (r : Random) (seq : list A)
  : py (A * Random) :=
  match seq with
  | [] => Raise IndexError
  | x :: _ =>
      let (i, r') := randbelow r (length seq) in
      Ret (nth i seq x, r')
  end.

(** [random.randint(a, b)] for [a <= b]: [a] plus an index drawn below
    [b - a + 1].  The program calls it with constant bounds only, so the
    empty range (a [ValueError] in Python) is not reached. *)
Definition randint (r : Random) (a b : Z) : Z * Random :=
  let (i, r') := randbelow r (Z.to_nat (b - a + 1)) in
  ((a + Z.of_nat i)%Z, r').

(** [timedelta(days=d)], a [datetime] being a count of microseconds. *)
Definition timedelta_days (d : Z) : Z := (d * 86400000000)%Z.

(** [if i.validade]: a [datetime] is true, [None] is false. *)
Definition tem_validade (i : Insumo) : bool :=
  match validade i with
  | Some _ => true
  | None => false
  end.

Section Geracao.
(** [random.seed(seed)]: the generator that the library installs for a
    seed. *)
Variable random_seed : Z -> Random.

(** The [for _ in range(qtd)] loop of [gerar_lote_insumos], with [n] passes
    left, the date [hoje], the generator and the list built so far. *)
Fixpoint gerar_loop (n : nat) (hoje : datetime) (rnd : Random)
  (itens : list Insumo) : py (list Insumo * Random) :=
  match n with
  | 0 => Ret (itens, rnd)
  | S n' =>
      nome <- random_choice rnd INSUMOS ;;
      exame <- random_choice (snd nome) EXAMES ;;
      let quantidade := randint (snd exame) 1 200 in
      let dias := randint (snd quantidade) 0 365 in
      let validade := (hoje + timedelta_days (fst dias))%Z in
      gerar_loop n' hoje (snd dias)
        (itens ++ [mkInsumo (fst nome) (fst quantidade) (fst exame)
                            (Some validade)])
  end.

(** [gerar_lote_insumos(qtd, seed)]; [hoje] is the reading of
    [datetime.today()].  The result is the list and the generator the call
    leaves behind.  [range(qtd)] is empty for [qtd <= 0]. *)
Definition gerar_lote_insumos (qtd seed : Z) (hoje : datetime)
  : py (list Insumo * Random) :=
  gerar_loop (Z.to_nat qtd) hoje (random_seed seed) [].

End Geracao.

(** ** Vocabulary of the specification *)

Section Vocabulary.
Context {K : Type} `{KeyOps K}.
Variable key : Insumo -> K.

(** [a] comes before [b] in the order of the keys. *)
Definition key_ord (a b : Insumo) : Prop :=
  key_le (key a) (key b) = true.

(** The keys of [l] are in non-decreasing order. *)
Definition nao_decrescente (l : list Insumo) : Prop :=
  Sorted key_ord l.

(** The elements of [l] whose key compares equal to [v], in the order in
    which [l] has them. *)
Definition com_chave (v : K) (l : list Insumo) : list Insumo :=
  filter (fun x => key_eq (key x) v) l.

(** The three comprehensions of [quick_sort], for the pivot key [pivot]. *)
Definition menores (pivot : K) (itens : list Insumo) : list Insumo :=
  filter (fun x => key_lt (key x) pivot) itens.
Definition iguais (pivot : K) (itens : list Insumo) : list Insumo :=
  filter (fun x => key_eq (key x) pivot) itens.
Definition maiores (pivot : K) (itens : list Insumo) : list Insumo :=
  filter (fun x => key_gt (key x) pivot) itens.

End Vocabulary.

(** The runs of [quick_sort] whatever [random.choice] answers: [itens] is
    returned as it is when it has at most one element; otherwise any element
    [p] of [itens] may give the pivot, and the result is put together from
    a run on the lesser part, the equal part and a run on the greater
    part. *)
Inductive quick_sort_run {K : Type} `{KeyOps K} (key : Insumo -> K)
  : list Insumo -> list Insumo -> Prop :=
| run_small (itens : list Insumo) :
    length itens <= 1 -> quick_sort_run key itens itens
| run_split (itens : list Insumo) (p : Insumo) (sm sg : list Insumo) :
    1 < length itens -> In p itens ->
    quick_sort_run key (menores key (key p) itens) sm ->
    quick_sort_run key (maiores key (key p) itens) sg ->
    quick_sort_run key itens (sm ++ iguais key (key p) itens ++ sg).

(** [a] occurs in [l] at a position before an occurrence of [b]. *)
Definition antes (a b : Insumo) (l : list Insumo) : Prop :=
  exists l1 l2 l3, l = l1 ++ a :: l2 ++ b :: l3.

(** [item] matches the target [nome] when their lowered names are equal. *)
Definition coincide {L : StrLower} (nome : string) (item : Insumo) : Prop :=
  lower (insumo item) = lower nome.

(** The key of the order by name, [lambda x: x.insumo.lower()] in [demo]. *)
Definition chave_nome {L : StrLower} (item : Insumo) : string :=
  lower (insumo item).

(** The key of the order by name when the case of the ASCII letters is
    set aside. *)
Definition chave_ascii (item : Insumo) : string :=
  ascii_lower (insumo item).

(** [i] with its expiry date moved by [delta]. *)
Definition adiar (delta : Z) (i : Insumo) : Insumo :=
  mkInsumo (insumo i) (quantidade i) (exame i)
           (option_map (fun v => (v + delta)%Z) (validade i)).

(** A record as [gerar_lote_insumos] makes them on the date [hoje]. *)
Definition insumo_gerado (hoje : datetime) (i : Insumo) : Prop :=
  In (insumo i) INSUMOS /\
  In (exame i) EXAMES /\
  (1 <= quantidade i <= 200)%Z /\
  exists d, (0 <= d <= 365)%Z /\
            validade i = Some (hoje + timedelta_days d)%Z.

(** Records and a generator for concrete instances; [x], [a] and [m] are the
    records of the specification's scenario. *)
Module Exemplo.
Definition x := mkInsumo "X" 5%Z "E1" None.
Definition a := mkInsumo "A" 1%Z "E2" None.
Definition m := mkInsumo "M" 3%Z "E1" None.
Definition x' := mkInsumo "x" 5%Z "E2" (Some 20%Z).
Definition rnd : Random := mkRandom (fun n => n * 7 + 3) 0.
End Exemplo.

(** * Properties *)

Lemma half_bounds (n : nat) : 1 < n -> 0 < n / 2 < n.
Proof.
  intros Hn. split.
  - apply Nat.div_str_pos. lia.
  - apply Nat.div_lt; lia.
Qed.

(** ** The order on keys *)

Section KeyFacts.
Context {K : Type} `{KeyTotal K}.

Lemma key_le_refl (a : K) : key_le a a = true.
Proof. destruct (key_le_total a a); assumption. Qed.

Lemma key_lt_true (a b : K) : key_lt a b = true <-> key_le b a = false.
Proof. rewrite key_lt_spec. apply negb_true_iff. Qed.

Lemma key_lt_false (a b : K) : key_lt a b = false <-> key_le b a = true.
Proof. rewrite key_lt_spec. apply negb_false_iff. Qed.

Lemma key_nle_le (a b : K) : key_le a b = false -> key_le b a = true.
Proof. intros Hab. destruct (key_le_total a b); congruence. Qed.

Lemma key_eq_true (a b : K) :
  key_eq a b = true <-> key_le a b = true /\ key_le b a = true.
Proof. rewrite key_eq_spec. apply andb_true_iff. Qed.

Lemma key_eq_sym (a b : K) : key_eq a b = key_eq b a.
Proof. rewrite !key_eq_spec. apply andb_comm. Qed.

(** Two keys that compare equal stand in the same relation to any third. *)
Lemma key_le_eq_l (a b c : K) :
  key_eq a b = true -> key_le a c = key_le b c.
Proof.
  intros [Hab Hba]%key_eq_true.
  destruct (key_le b c) eqn:Hbc.
  - eapply key_le_trans; eassumption.
  - destruct (key_le a c) eqn:Hac; [|reflexivity].
    rewrite <- Hbc. symmetry. eapply key_le_trans; eassumption.
Qed.

Lemma key_le_eq_r (a b c : K) :
  key_eq a b = true -> key_le c a = key_le c b.
Proof.
  intros [Hab Hba]%key_eq_true.
  destruct (key_le c b) eqn:Hcb.
  - eapply key_le_trans; eassumption.
  - destruct (key_le c a) eqn:Hca; [|reflexivity].
    rewrite <- Hcb. symmetry. eapply key_le_trans; eassumption.
Qed.

Lemma key_eq_trans (a b c : K) :
  key_eq a b = true -> key_eq b c = true -> key_eq a c = true.
Proof.
  intros Hab Hbc. rewrite key_eq_spec.
  rewrite (key_le_eq_l a b c Hab), (key_le_eq_r a b c Hab).
  rewrite <- key_eq_spec. exact Hbc.
Qed.

Lemma key_lt_irrefl (a : K) : key_lt a a = false.
Proof. rewrite key_lt_spec, key_le_refl. reflexivity. Qed.

Lemma key_le_lt_trans (a b c : K) :
  key_le a b = true -> key_lt b c = true -> key_lt a c = true.
Proof.
  intros Hab Hbc. apply key_lt_true. apply key_lt_true in Hbc.
  destruct (key_le c a) eqn:Hca; [|reflexivity].
  rewrite <- Hbc. symmetry. eapply key_le_trans; eassumption.
Qed.

Lemma key_lt_le_trans (a b c : K) :
  key_lt a b = true -> key_le b c = true -> key_lt a c = true.
Proof.
  intros Hab Hbc. apply key_lt_true. apply key_lt_true in Hab.
  destruct (key_le c a) eqn:Hca; [|reflexivity].
  rewrite <- Hab. symmetry. eapply key_le_trans; eassumption.
Qed.

End KeyFacts.

(** ** Merge sort *)

Section MergeFacts.
Context {K : Type} `{KeyTotal K}.
Variable key : Insumo -> K.

Lemma key_ord_trans : Relations_1.Transitive (key_ord key).
Proof. intros a b c. unfold key_ord. apply key_le_trans. Qed.

Lemma nao_decrescente_strong (l : list Insumo) :
  nao_decrescente key l <-> StronglySorted (key_ord key) l.
Proof.
  split.
  - apply Sorted_StronglySorted, key_ord_trans.
  - apply StronglySorted_Sorted.
Qed.

Lemma _merge_loop_out (a b out : list Insumo) :
  _merge_loop key a b out = out ++ _merge key a b.
Proof.
  unfold _merge. revert b out.
  induction a as [|x a IHa]; intros b.
  - intros out. simp _merge_loop. reflexivity.
  - induction b as [|y b IHb]; intros out.
    + simp _merge_loop. reflexivity.
    + simp _merge_loop.
      destruct (key_le (key x) (key y)); cbn.
      * rewrite IHa, (IHa _ [x]), <- app_assoc. reflexivity.
      * rewrite IHb, (IHb [y]), <- app_assoc. reflexivity.
Qed.

Lemma _merge_nil_l (b : list Insumo) : _merge key [] b = b.
Proof. unfold _merge. simp _merge_loop. reflexivity. Qed.

Lemma _merge_nil_r (a : list Insumo) : _merge key a [] = a.
Proof.
  unfold _merge. destruct a; simp _merge_loop; cbn;
    rewrite ?app_nil_r; reflexivity.
Qed.

Lemma _merge_cons (x y : Insumo) (a b : list Insumo) :
  _merge key (x :: a) (y :: b) =
  if key_le (key x) (key y) then x :: _merge key a (y :: b)
  else y :: _merge key (x :: a) b.
Proof.
  unfold _merge at 1. simp _merge_loop.
  destruct (key_le (key x) (key y)); cbn;
    rewrite _merge_loop_out; reflexivity.
Qed.

Lemma _merge_perm (a b : list Insumo) :
  Permutation (_merge key a b) (a ++ b).
Proof.
  revert b. induction a as [|x a IHa]; intros b.
  - rewrite _merge_nil_l. reflexivity.
  - induction b as [|y b IHb].
    + rewrite _merge_nil_r, app_nil_r. reflexivity.
    + rewrite _merge_cons. destruct (key_le (key x) (key y)).
      * cbn. constructor. apply IHa.
      * rewrite IHb. apply (Permutation_middle (x :: a) b y).
Qed.

Lemma _merge_sorted (a b : list Insumo) :
  StronglySorted (key_ord key) a -> StronglySorted (key_ord key) b ->
  StronglySorted (key_ord key) (_merge key a b).
Proof.
  revert b. induction a as [|x a IHa]; intros b Ha Hb.
  - rewrite _merge_nil_l. exact Hb.
  - induction b as [|y b IHb].
    + rewrite _merge_nil_r. exact Ha.
    + rewrite _merge_cons.
      apply StronglySorted_inv in Ha as [Ha Hxa].
      pose proof Hb as Hyb'.
      apply StronglySorted_inv in Hyb' as [Hb' Hyb].
      destruct (key_le (key x) (key y)) eqn:Hxy.
      * constructor; [apply IHa; assumption|].
        rewrite _merge_perm. apply Forall_app. split; [exact Hxa|].
        constructor; [exact Hxy|].
        eapply Forall_impl; [|exact Hyb].
        intros z Hz. eapply key_le_trans; eassumption.
      * apply key_nle_le in Hxy.
        constructor.
        { apply IHb; assumption. }
        rewrite _merge_perm. apply Forall_app. split; [|exact Hyb].
        constructor; [exact Hxy|].
        eapply Forall_impl; [|exact Hxa].
        intros z Hz. eapply key_le_trans; eassumption.
Qed.

(** When [y] is taken from the right list before [x], no element of the
    left list from [x] on has a key equal to the key of [y]. *)
Lemma com_chave_above (v : K) (x : Insumo) (a : list Insumo) :
  key_lt v (key x) = true ->
  StronglySorted (key_ord key) (x :: a) ->
  com_chave key v (x :: a) = [].
Proof.
  intros Hv Ha. apply StronglySorted_inv in Ha as [_ Hxa].
  assert (Hall : Forall (fun z => key_eq (key z) v = false) (x :: a)).
  { apply key_lt_true in Hv.
    constructor.
    - rewrite key_eq_spec, Hv. reflexivity.
    - eapply Forall_impl; [|exact Hxa].
      intros z Hz. rewrite key_eq_spec.
      destruct (key_le (key z) v) eqn:Hzv; [|reflexivity].
      assert (Hxv : key_le (key x) v = true)
        by (eapply key_le_trans; eassumption).
      congruence. }
  unfold com_chave. induction Hall as [|z l Hz _ IH]; [reflexivity|].
  cbn. rewrite Hz. exact IH.
Qed.

Lemma com_chave_cons (v : K) (z : Insumo) (l : list Insumo) :
  com_chave key v (z :: l) =
  if key_eq (key z) v then z :: com_chave key v l else com_chave key v l.
Proof. reflexivity. Qed.

Lemma com_chave_app (v : K) (l1 l2 : list Insumo) :
  com_chave key v (l1 ++ l2) = com_chave key v l1 ++ com_chave key v l2.
Proof. apply filter_app. Qed.

Lemma _merge_com_chave (v : K) (a b : list Insumo) :
  StronglySorted (key_ord key) a ->
  com_chave key v (_merge key a b) = com_chave key v a ++ com_chave key v b.
Proof.
  revert b. induction a as [|x a IHa]; intros b Ha.
  - rewrite _merge_nil_l. reflexivity.
  - induction b as [|y b IHb].
    + rewrite _merge_nil_r. cbn. rewrite app_nil_r. reflexivity.
    + rewrite _merge_cons.
      destruct (key_le (key x) (key y)) eqn:Hxy.
      * rewrite (com_chave_cons v x), (com_chave_cons v x a).
        rewrite IHa by (apply StronglySorted_inv in Ha; tauto).
        destruct (key_eq (key x) v); reflexivity.
      * rewrite (com_chave_cons v y), IHb, (com_chave_cons v y b).
        destruct (key_eq (key y) v) eqn:Hyv; [|reflexivity].
        assert (Hnil : com_chave key v (x :: a) = []).
        { apply com_chave_above; [|exact Ha].
          rewrite key_lt_spec.
          rewrite <- (key_le_eq_r _ _ _ Hyv), Hxy. reflexivity. }
        rewrite Hnil. reflexivity.
Qed.

End MergeFacts.

Section MergeSortFacts.
Context {K : Type} `{KeyTotal K}.
Variable key : Insumo -> K.

Lemma merge_sort_small (itens : list Insumo) :
  length itens <= 1 -> merge_sort key itens = itens.
Proof.
  intros Hlen. simp merge_sort.
  destruct (le_lt_dec (length itens) 1); [reflexivity | lia].
Qed.

Lemma merge_sort_split (itens : list Insumo) :
  1 < length itens ->
  merge_sort key itens =
  _merge key (merge_sort key (firstn (length itens / 2) itens))
             (merge_sort key (skipn (length itens / 2) itens)).
Proof.
  intros Hlen. rewrite merge_sort_equation_1 at 1.
  destruct (le_lt_dec (length itens) 1) as [Hle|Hgt]; [lia|].
  rewrite merge_sort_clause_1_equation_2. reflexivity.
Qed.

(** Induction along the recursion of [merge_sort]. *)
Lemma merge_sort_rec (P : list Insumo -> Prop) :
  (forall itens, length itens <= 1 -> P itens) ->
  (forall itens, 1 < length itens ->
     P (firstn (length itens / 2) itens) ->
     P (skipn (length itens / 2) itens) -> P itens) ->
  forall itens, P itens.
Proof.
  intros Hbase Hstep itens.
  induction itens as [itens IH] using (induction_ltof1 _ (@length Insumo)).
  unfold ltof in IH.
  destruct (le_lt_dec (length itens) 1) as [Hle|Hgt]; [auto|].
  pose proof (half_bounds _ Hgt) as Hmid.
  apply Hstep; [exact Hgt| |]; apply IH.
  - rewrite length_firstn. lia.
  - rewrite length_skipn. lia.
Qed.

Lemma merge_sort_perm (itens : list Insumo) :
  Permutation (merge_sort key itens) itens.
Proof.
  induction itens as [itens Hlen|itens Hlen IH1 IH2] using merge_sort_rec.
  - rewrite merge_sort_small by exact Hlen. reflexivity.
  - rewrite merge_sort_split by exact Hlen.
    rewrite _merge_perm, IH1, IH2, firstn_skipn. reflexivity.
Qed.

Lemma merge_sort_sorted (itens : list Insumo) :
  StronglySorted (key_ord key) (merge_sort key itens).
Proof.
  induction itens as [itens Hlen|itens Hlen IH1 IH2] using merge_sort_rec.
  - rewrite merge_sort_small by exact Hlen.
    destruct itens as [|x [|y t]]; cbn in Hlen; try lia;
      repeat constructor.
  - rewrite merge_sort_split by exact Hlen.
    apply _merge_sorted; assumption.
Qed.

Lemma merge_sort_com_chave (v : K) (itens : list Insumo) :
  com_chave key v (merge_sort key itens) = com_chave key v itens.
Proof.
  induction itens as [itens Hlen|itens Hlen IH1 IH2] using merge_sort_rec.
  - rewrite merge_sort_small by exact Hlen. reflexivity.
  - rewrite merge_sort_split by exact Hlen.
    rewrite _merge_com_chave by apply merge_sort_sorted.
    rewrite IH1, IH2, <- com_chave_app, firstn_skipn. reflexivity.
Qed.

End MergeSortFacts.

(** ** Quick sort *)

Section ListFacts.
Variable R : Insumo -> Insumo -> Prop.

Lemma StronglySorted_app_bound (l1 l2 : list Insumo) :
  StronglySorted R l1 -> StronglySorted R l2 ->
  (forall a b, In a l1 -> In b l2 -> R a b) ->
  StronglySorted R (l1 ++ l2).
Proof.
  intros H1 H2 Hcross. induction H1 as [|a l1 H1 IH Ha]; [exact H2|].
  cbn. constructor.
  - apply IH. intros x b Hx Hb. apply Hcross; [right|]; assumption.
  - apply Forall_app. split; [exact Ha|].
    apply Forall_forall. intros b Hb. apply Hcross; [left; reflexivity|].
    exact Hb.
Qed.

Lemma StronglySorted_pairwise (l : list Insumo) :
  (forall a b, In a l -> In b l -> R a b) -> StronglySorted R l.
Proof.
  induction l as [|x l IH]; intros Hall; constructor.
  - apply IH. intros a b Ha Hb. apply Hall; right; assumption.
  - apply Forall_forall. intros b Hb.
    apply Hall; [left; reflexivity | right; exact Hb].
Qed.

Lemma filter_filter_keep (f g : Insumo -> bool) (l : list Insumo) :
  (forall x, g x = true -> f x = true) ->
  filter g (filter f l) = filter g l.
Proof.
  intros Hfg. induction l as [|x l IH]; [reflexivity|].
  cbn. destruct (f x) eqn:Hf; cbn.
  - rewrite IH. reflexivity.
  - destruct (g x) eqn:Hg; [|exact IH].
    apply Hfg in Hg. congruence.
Qed.

Lemma filter_filter_drop (f g : Insumo -> bool) (l : list Insumo) :
  (forall x, g x = true -> f x = false) ->
  filter g (filter f l) = [].
Proof.
  intros Hfg. induction l as [|x l IH]; [reflexivity|].
  cbn. destruct (f x) eqn:Hf; cbn; [|exact IH].
  destruct (g x) eqn:Hg; [|exact IH].
  apply Hfg in Hg. congruence.
Qed.

End ListFacts.

Section QuickSortFacts.
Context {K : Type} `{HT : KeyTotal K}.
Variable key : Insumo -> K.

Lemma choice_In (rnd : Random) (x : Insumo) (l : list Insumo) :
  In (fst (choice rnd x l)) (x :: l).
Proof.
  unfold choice, randbelow. cbn [fst].
  apply nth_In. apply Nat.mod_upper_bound. discriminate.
Qed.

Lemma quick_sort_step (x y : Insumo) (t : list Insumo) (rnd : Random) :
  let itens := x :: y :: t in
  let sorteio := choice rnd x (y :: t) in
  let pivot := key (fst sorteio) in
  let r1 := quick_sort key (menores key pivot itens) (snd sorteio) in
  let r2 := quick_sort key (maiores key pivot itens) (snd r1) in
  quick_sort key itens rnd =
  (fst r1 ++ iguais key pivot itens ++ fst r2, snd r2).
Proof. cbv zeta. rewrite quick_sort_equation_3. reflexivity. Qed.

(** A pass that leaves out the element that gave the pivot returns a
    shorter list. *)
Lemma filter_shorter (f : Insumo -> bool) (p : Insumo) (l : list Insumo) :
  In p l -> f p = false -> length (filter f l) < length l.
Proof.
  intros Hin Hf.
  pose proof (filter_length_le f l) as Hle.
  destruct (Nat.eq_dec (length (filter f l)) (length l)) as [Heq|Hne];
    [|lia].
  apply filter_length_forallb in Heq.
  rewrite forallb_forall in Heq. specialize (Heq p Hin). congruence.
Qed.

(** Whatever the generator draws, the call of [quick_sort] is one of the
    runs of [quick_sort_run]. *)
Lemma quick_sort_in_run (itens : list Insumo) (rnd : Random) :
  quick_sort_run key itens (fst (quick_sort key itens rnd)).
Proof.
  revert rnd.
  induction itens as [itens IH] using (induction_ltof1 _ (@length Insumo)).
  unfold ltof in IH. intros rnd.
  destruct itens as [|x [|y t]].
  - simp quick_sort. apply run_small. cbn. lia.
  - simp quick_sort. apply run_small. cbn. lia.
  - rewrite quick_sort_step. cbn [fst].
    pose proof (choice_In rnd x (y :: t)) as Hin.
    set (p := fst (choice rnd x (y :: t))) in *.
    apply run_split; [cbn; lia | exact Hin | apply IH | apply IH].
    + apply (filter_shorter _ p); [exact Hin|].
      rewrite key_lt_spec, key_le_refl. reflexivity.
    + apply (filter_shorter _ p); [exact Hin|].
      rewrite key_gt_spec, key_lt_spec, key_le_refl. reflexivity.
Qed.

(** Exactly one of [<], [==], [>] holds between two keys. *)
Lemma key_trichotomy (a p : K) :
  (key_lt a p = true /\ key_eq a p = false /\ key_gt a p = false) \/
  (key_lt a p = false /\ key_eq a p = true /\ key_gt a p = false) \/
  (key_lt a p = false /\ key_eq a p = false /\ key_gt a p = true).
Proof.
  rewrite key_gt_spec, !key_lt_spec, key_eq_spec.
  destruct (key_le a p) eqn:Hap, (key_le p a) eqn:Hpa; cbn; auto.
  apply key_nle_le in Hap. congruence.
Qed.

Lemma partition_perm (pivot : K) (itens : list Insumo) :
  Permutation
    (menores key pivot itens ++ iguais key pivot itens ++
     maiores key pivot itens)
    itens.
Proof.
  unfold menores, iguais, maiores.
  induction itens as [|z l IH]; [reflexivity|].
  cbn [filter].
  destruct (key_trichotomy (key z) pivot)
    as [(-> & -> & ->)|[(-> & -> & ->)|(-> & -> & ->)]];
    cbv iota; rewrite <- ?app_comm_cons.
  - constructor. exact IH.
  - rewrite <- Permutation_middle. constructor. exact IH.
  - rewrite app_assoc, <- Permutation_middle, <- app_assoc.
    constructor. exact IH.
Qed.

Lemma run_perm (itens r : list Insumo) :
  quick_sort_run key itens r -> Permutation r itens.
Proof.
  induction 1 as [itens _|itens p sm sg _ _ _ Hsm _ Hsg]; [reflexivity|].
  rewrite Hsm, Hsg. apply partition_perm.
Qed.

Lemma run_sorted (itens r : list Insumo) :
  quick_sort_run key itens r -> StronglySorted (key_ord key) r.
Proof.
  induction 1 as [itens Hlen|itens p sm sg _ _ Rsm Ssm Rsg Ssg].
  - destruct itens as [|x [|y t]]; cbn in Hlen; try lia; repeat constructor.
  - apply run_perm in Rsm, Rsg.
    assert (Hm : forall a, In a sm -> key_le (key p) (key a) = false).
    { intros a Ha. apply (Permutation_in _ Rsm) in Ha.
      apply filter_In in Ha as [_ Ha]. apply key_lt_true. exact Ha. }
    assert (Hi : forall a, In a (iguais key (key p) itens) ->
                           key_eq (key a) (key p) = true).
    { intros a Ha. apply filter_In in Ha as [_ Ha]. exact Ha. }
    assert (Hg : forall a, In a sg -> key_le (key a) (key p) = false).
    { intros a Ha. apply (Permutation_in _ Rsg) in Ha.
      apply filter_In in Ha as [_ Ha].
      rewrite key_gt_spec in Ha. apply key_lt_true. exact Ha. }
    apply StronglySorted_app_bound; [exact Ssm| |].
    + apply StronglySorted_app_bound; [|exact Ssg|].
      * apply StronglySorted_pairwise. intros a b Ha Hb.
        apply Hi, key_eq_true in Ha. apply Hi, key_eq_true in Hb.
        unfold key_ord. eapply key_le_trans; [apply Ha | apply Hb].
      * intros a b Ha Hb. apply Hi, key_eq_true in Ha. apply Hg in Hb.
        unfold key_ord. apply key_nle_le in Hb.
        eapply key_le_trans; [apply Ha | exact Hb].
    + intros a b Ha Hb. apply Hm, key_nle_le in Ha.
      unfold key_ord. apply in_app_iff in Hb as [Hb|Hb].
      * apply Hi, key_eq_true in Hb.
        eapply key_le_trans; [exact Ha | apply Hb].
      * apply Hg, key_nle_le in Hb.
        eapply key_le_trans; [exact Ha | exact Hb].
Qed.

(** Each pass of the partition keeps the elements of one key together and
    in their order. *)
Lemma partition_com_chave (v pivot : K) (itens : list Insumo) :
  com_chave key v (menores key pivot itens) ++
  com_chave key v (iguais key pivot itens) ++
  com_chave key v (maiores key pivot itens) = com_chave key v itens.
Proof.
  unfold com_chave, menores, iguais, maiores.
  assert (Hcmp : forall z, key_eq (key z) v = true ->
            key_lt (key z) pivot = key_lt v pivot /\
            key_eq (key z) pivot = key_eq v pivot /\
            key_gt (key z) pivot = key_gt v pivot).
  { intros z Hz.
    rewrite !key_gt_spec, !key_lt_spec, !key_eq_spec.
    rewrite (key_le_eq_l _ _ pivot Hz), (key_le_eq_r _ _ pivot Hz).
    auto. }
  destruct (key_trichotomy v pivot)
    as [(Hl & He & Hg)|[(Hl & He & Hg)|(Hl & He & Hg)]].
  - rewrite filter_filter_keep, 2 filter_filter_drop.
    + rewrite !app_nil_r. reflexivity.
    + intros z Hz. destruct (Hcmp z Hz) as (_ & _ & ->). exact Hg.
    + intros z Hz. destruct (Hcmp z Hz) as (_ & -> & _). exact He.
    + intros z Hz. destruct (Hcmp z Hz) as (-> & _ & _). exact Hl.
  - rewrite (filter_filter_keep (fun x => key_eq (key x) pivot)),
      2 filter_filter_drop.
    + rewrite app_nil_r. reflexivity.
    + intros z Hz. destruct (Hcmp z Hz) as (_ & _ & ->). exact Hg.
    + intros z Hz. destruct (Hcmp z Hz) as (-> & _ & _). exact Hl.
    + intros z Hz. destruct (Hcmp z Hz) as (_ & -> & _). exact He.
  - rewrite (filter_filter_keep (fun x => key_gt (key x) pivot)),
      2 filter_filter_drop.
    + reflexivity.
    + intros z Hz. destruct (Hcmp z Hz) as (_ & -> & _). exact He.
    + intros z Hz. destruct (Hcmp z Hz) as (-> & _ & _). exact Hl.
    + intros z Hz. destruct (Hcmp z Hz) as (_ & _ & ->). exact Hg.
Qed.

Lemma run_com_chave (v : K) (itens r : list Insumo) :
  quick_sort_run key itens r -> com_chave key v r = com_chave key v itens.
Proof.
  induction 1 as [itens _|itens p sm sg _ _ _ Hsm _ Hsg]; [reflexivity|].
  rewrite !com_chave_app, Hsm, Hsg. apply partition_com_chave.
Qed.

Lemma quick_sort_perm (itens : list Insumo) (rnd : Random) :
  Permutation (fst (quick_sort key itens rnd)) itens.
Proof. apply run_perm, quick_sort_in_run. Qed.

Lemma quick_sort_sorted (itens : list Insumo) (rnd : Random) :
  StronglySorted (key_ord key) (fst (quick_sort key itens rnd)).
Proof. apply (run_sorted itens), quick_sort_in_run. Qed.

Lemma quick_sort_com_chave (v : K) (itens : list Insumo) (rnd : Random) :
  com_chave key v (fst (quick_sort key itens rnd)) = com_chave key v itens.
Proof. apply run_com_chave, quick_sort_in_run. Qed.

End QuickSortFacts.

(** ** Stability and uniqueness of the sorted order *)

Section StableFacts.
Context {K : Type} `{HT : KeyTotal K}.
Variable key : Insumo -> K.

Lemma filter_split (f : Insumo -> bool) (l p q : list Insumo) (x : Insumo) :
  filter f l = p ++ x :: q ->
  exists l1 l2, l = l1 ++ x :: l2 /\ filter f l1 = p /\ filter f l2 = q.
Proof.
  revert p. induction l as [|z l IH]; intros p Hf.
  - destruct p; discriminate.
  - cbn in Hf. destruct (f z) eqn:Hz.
    + destruct p as [|z' p]; cbn in Hf.
      * injection Hf as -> Hq. exists [], l. auto.
      * injection Hf as <- Hq.
        destruct (IH p Hq) as (l1 & l2 & -> & H1 & H2).
        exists (z :: l1), l2. cbn. rewrite Hz, H1. auto.
    + destruct (IH p Hf) as (l1 & l2 & -> & H1 & H2).
      exists (z :: l1), l2. cbn. rewrite Hz. auto.
Qed.

(** A rearrangement that keeps, for every key, the elements of that key in
    their order keeps every equal-keyed pair in its order. *)
Lemma com_chave_antes (l r : list Insumo) (a b : Insumo) :
  (forall v, com_chave key v r = com_chave key v l) ->
  key_eq (key a) (key b) = true ->
  antes a b l -> antes a b r.
Proof.
  intros Hst Hab (l1 & l2 & l3 & ->).
  specialize (Hst (key b)).
  rewrite com_chave_app, com_chave_cons, Hab in Hst.
  rewrite com_chave_app, com_chave_cons in Hst.
  rewrite key_eq_spec, key_le_refl in Hst. cbn [andb] in Hst.
  apply filter_split in Hst as (r1 & r' & -> & _ & Hr').
  apply filter_split in Hr' as (r2 & r3 & -> & _ & _).
  exists r1, r2, r3. reflexivity.
Qed.

(** There is one sorted arrangement of a list that keeps the elements of
    every key in their order. *)
Lemma sorted_stable_unique (l1 l2 : list Insumo) :
  StronglySorted (key_ord key) l1 -> StronglySorted (key_ord key) l2 ->
  (forall v, com_chave key v l1 = com_chave key v l2) ->
  l1 = l2.
Proof.
  intros S1. revert l2.
  induction S1 as [|x l1 S1 IH Hx]; intros l2 S2 Hst.
  - destruct l2 as [|y l2]; [reflexivity|].
    specialize (Hst (key y)). rewrite com_chave_cons in Hst.
    rewrite key_eq_spec, key_le_refl in Hst. discriminate.
  - destruct l2 as [|y l2].
    { specialize (Hst (key x)). rewrite com_chave_cons in Hst.
      rewrite key_eq_spec, key_le_refl in Hst. discriminate. }
    apply StronglySorted_inv in S2 as [S2 Hy].
    assert (Hxy : key_le (key y) (key x) = true).
    { pose proof (Hst (key x)) as Hv.
      rewrite com_chave_cons, key_eq_spec, key_le_refl in Hv.
      cbn [andb] in Hv.
      assert (Hin : In x (com_chave key (key x) (y :: l2)))
        by (rewrite <- Hv; left; reflexivity).
      apply filter_In in Hin as [[->|Hin] _]; [apply key_le_refl|].
      rewrite Forall_forall in Hy. apply Hy. exact Hin. }
    assert (Hyx : key_le (key x) (key y) = true).
    { pose proof (Hst (key y)) as Hv.
      rewrite (com_chave_cons key (key y) y) in Hv.
      rewrite key_eq_spec, key_le_refl in Hv. cbn [andb] in Hv.
      assert (Hin : In y (com_chave key (key y) (x :: l1)))
        by (rewrite Hv; left; reflexivity).
      apply filter_In in Hin as [[->|Hin] _]; [apply key_le_refl|].
      rewrite Forall_forall in Hx. apply Hx. exact Hin. }
    assert (Heq : x = y).
    { pose proof (Hst (key x)) as Hv.
      rewrite !com_chave_cons in Hv.
      rewrite !key_eq_spec, key_le_refl, Hxy, Hyx in Hv.
      cbn [andb] in Hv. congruence. }
    subst y. f_equal. apply IH; [exact S2|].
    intros v. specialize (Hst v). rewrite !com_chave_cons in Hst.
    destruct (key_eq (key x) v); congruence.
Qed.

End StableFacts.

(** ** The key types of the program *)

(** Integer keys ([quantidade], [validade]). *)
#[export] Instance Z_KeyTotal : KeyTotal Z.
Proof.
  split; cbn.
  - intros a b. rewrite !Z.leb_le. lia.
  - intros a b c. rewrite !Z.leb_le. lia.
  - intros a b. rewrite Z.ltb_antisym. reflexivity.
  - intros a b. rewrite Z.gtb_ltb. reflexivity.
  - intros a b.
    destruct (Z.eqb_spec a b), (Z.leb_spec a b), (Z.leb_spec b a);
      cbn; (reflexivity || lia).
Qed.

Lemma string_compare_lt_trans (a b c : string) :
  String.compare a b = Lt -> String.compare b c = Lt ->
  String.compare a c = Lt.
Proof.
  revert b c. induction a as [|x a IH]; intros [|y b] [|z c]; cbn;
    try congruence.
  unfold Ascii.compare.
  destruct (N.compare_spec (N_of_ascii x) (N_of_ascii y)) as [Hxy|Hxy|Hxy];
    destruct (N.compare_spec (N_of_ascii y) (N_of_ascii z)) as [Hyz|Hyz|Hyz];
    destruct (N.compare_spec (N_of_ascii x) (N_of_ascii z)) as [Hxz|Hxz|Hxz];
    try congruence; try lia.
  apply IH.
Qed.

Lemma string_ltb_leb (a b : string) : String.ltb a b = negb (String.leb b a).
Proof.
  unfold String.ltb, String.leb. rewrite (String.compare_antisym b a).
  destruct (String.compare a b); reflexivity.
Qed.

Lemma string_compare_refl (a : string) : String.compare a a = Eq.
Proof.
  pose proof (String.compare_antisym a a) as Ha.
  destruct (String.compare a a); (reflexivity || discriminate).
Qed.

Lemma string_leb_trans (a b c : string) :
  String.leb a b = true -> String.leb b c = true -> String.leb a c = true.
Proof.
  unfold String.leb. intros Hab Hbc.
  destruct (String.compare a b) eqn:Cab; [| |discriminate].
  - apply String.compare_eq_iff in Cab. subst b. exact Hbc.
  - destruct (String.compare b c) eqn:Cbc; [| |discriminate].
    + apply String.compare_eq_iff in Cbc. subst c. rewrite Cab. reflexivity.
    + rewrite (string_compare_lt_trans a b c Cab Cbc). reflexivity.
Qed.

(** String keys (the lowered name). *)
#[export] Instance string_KeyTotal : KeyTotal string.
Proof.
  split; cbn.
  - apply String.leb_total.
  - apply string_leb_trans.
  - apply string_ltb_leb.
  - reflexivity.
  - intros a b. destruct (String.eqb_spec a b) as [->|Hne].
    + unfold String.leb. rewrite string_compare_refl. reflexivity.
    + destruct (String.leb a b) eqn:Hab, (String.leb b a) eqn:Hba;
        try reflexivity.
      elim Hne. apply String.leb_antisym; assumption.
Qed.

(** ** Sorting: the specification's properties *)

(** The scenario of the specification: sorting [X], [A], [M] by name gives
    [A], [M], [X], and the binary search of ["m"] in the result finds the
    record [M]. *)
Example merge_sort_scenario :
  merge_sort chave_nome [Exemplo.x; Exemplo.a; Exemplo.m] =
  [Exemplo.a; Exemplo.m; Exemplo.x].
Proof. reflexivity. Qed.

Example quick_sort_scenario :
  fst (quick_sort chave_nome [Exemplo.x; Exemplo.a; Exemplo.m] Exemplo.rnd) =
  [Exemplo.a; Exemplo.m; Exemplo.x].
Proof. reflexivity. Qed.

Example busca_binaria_scenario :
  busca_binaria (merge_sort chave_nome [Exemplo.x; Exemplo.a; Exemplo.m]) "m"
  = Ret (Some Exemplo.m).
Proof. reflexivity. Qed.

(** C1. For every list [S] and every key function into a totally ordered key
    type, [merge_sort] and [quick_sort] (whatever the generator draws) return
    a permutation of [S], hence a list of the same length and with the same
    multiset of elements, whose keys are in non-decreasing order. *)
Theorem sorts_sorted_permutation {K : Type} `{HT : KeyTotal K}
  (key : Insumo -> K) (S : list Insumo) (rnd : Random) :
  (Permutation (merge_sort key S) S /\
   length (merge_sort key S) = length S /\
   nao_decrescente key (merge_sort key S)) /\
  (Permutation (fst (quick_sort key S rnd)) S /\
   length (fst (quick_sort key S rnd)) = length S /\
   nao_decrescente key (fst (quick_sort key S rnd))).
Proof.
  split; split.
  - apply merge_sort_perm.
  - split.
    + apply Permutation_length, merge_sort_perm.
    + apply nao_decrescente_strong, merge_sort_sorted.
  - apply quick_sort_perm.
  - split.
    + apply Permutation_length, quick_sort_perm.
    + apply nao_decrescente_strong, quick_sort_sorted.
Qed.

Lemma sorts_sorted_permutation_witness :
  KeyTotal Z /\
  (Permutation (merge_sort quantidade [Exemplo.x; Exemplo.a; Exemplo.m])
               [Exemplo.x; Exemplo.a; Exemplo.m] /\
   length (merge_sort quantidade [Exemplo.x; Exemplo.a; Exemplo.m]) = 3 /\
   nao_decrescente quantidade
     (merge_sort quantidade [Exemplo.x; Exemplo.a; Exemplo.m])) /\
  (Permutation
     (fst (quick_sort quantidade [Exemplo.x; Exemplo.a; Exemplo.m]
             Exemplo.rnd))
     [Exemplo.x; Exemplo.a; Exemplo.m] /\
   length (fst (quick_sort quantidade [Exemplo.x; Exemplo.a; Exemplo.m]
                  Exemplo.rnd)) = 3 /\
   nao_decrescente quantidade
     (fst (quick_sort quantidade [Exemplo.x; Exemplo.a; Exemplo.m]
             Exemplo.rnd))).
Proof.
  split; [exact Z_KeyTotal|].
  exact (sorts_sorted_permutation quantidade
           [Exemplo.x; Exemplo.a; Exemplo.m] Exemplo.rnd).
Defined.

(** C2. [merge_sort] is stable: two elements with equal keys, the first
    before the second in [S], come out in that order; more generally the
    elements of any one key come out in the order [S] has them.  In the merge
    step a tie takes the front element of the left list. *)
Theorem merge_sort_stable {K : Type} `{HT : KeyTotal K}
  (key : Insumo -> K) (S : list Insumo) :
  (forall a b, key_eq (key a) (key b) = true ->
               antes a b S -> antes a b (merge_sort key S)) /\
  (forall v, com_chave key v (merge_sort key S) = com_chave key v S) /\
  (forall x y a b, key_eq (key x) (key y) = true ->
                   _merge key (x :: a) (y :: b) =
                   x :: _merge key a (y :: b)).
Proof.
  split; [|split].
  - intros a b Hab Hbefore.
    apply (com_chave_antes key S); [|exact Hab|exact Hbefore].
    intros v. apply merge_sort_com_chave.
  - intros v. apply merge_sort_com_chave.
  - intros x y a b Hxy. rewrite _merge_cons.
    apply key_eq_true in Hxy as [-> _]. reflexivity.
Qed.

Lemma merge_sort_stable_witness :
  KeyTotal string /\
  antes Exemplo.x Exemplo.x'
    (merge_sort chave_nome
       [Exemplo.x; Exemplo.m; Exemplo.x'; Exemplo.a]).
Proof.
  split; [exact string_KeyTotal|].
  apply (proj1 (merge_sort_stable chave_nome
                  [Exemplo.x; Exemplo.m; Exemplo.x'; Exemplo.a])).
  - reflexivity.
  - exists [], [Exemplo.m], [Exemplo.a]. reflexivity.
Defined.

(** C3. On a list whose keys are already in non-decreasing order both sorts
    return the list itself, element for element. *)
Theorem sorts_idempotent_on_sorted {K : Type} `{HT : KeyTotal K}
  (key : Insumo -> K) (S : list Insumo) (rnd : Random) :
  nao_decrescente key S ->
  merge_sort key S = S /\ fst (quick_sort key S rnd) = S.
Proof.
  intros HS. apply nao_decrescente_strong in HS. split.
  - apply (sorted_stable_unique key); [apply merge_sort_sorted|exact HS|].
    intros v. apply merge_sort_com_chave.
  - apply (sorted_stable_unique key); [apply quick_sort_sorted|exact HS|].
    intros v. apply quick_sort_com_chave.
Qed.

Lemma sorts_idempotent_on_sorted_witness :
  KeyTotal Z /\
  nao_decrescente quantidade [Exemplo.a; Exemplo.m; Exemplo.x; Exemplo.x'] /\
  merge_sort quantidade [Exemplo.a; Exemplo.m; Exemplo.x; Exemplo.x'] =
    [Exemplo.a; Exemplo.m; Exemplo.x; Exemplo.x'] /\
  fst (quick_sort quantidade [Exemplo.a; Exemplo.m; Exemplo.x; Exemplo.x']
         Exemplo.rnd) =
    [Exemplo.a; Exemplo.m; Exemplo.x; Exemplo.x'].
Proof.
  assert (HS : nao_decrescente quantidade
                 [Exemplo.a; Exemplo.m; Exemplo.x; Exemplo.x'])
    by (repeat constructor).
  split; [exact Z_KeyTotal|]. split; [exact HS|].
  exact (sorts_idempotent_on_sorted quantidade
           [Exemplo.a; Exemplo.m; Exemplo.x; Exemplo.x'] Exemplo.rnd HS).
Defined.

(** C10. The list returned by [quick_sort] does not depend on the draws of
    the generator: for every generator, and for every run whatever element
    gives each pivot, it is the list returned by [merge_sort].  So
    [quick_sort] keeps equal-keyed elements in their input order; each of the
    three partition passes keeps the elements of one key in their order. *)
Theorem quick_sort_equals_merge_sort {K : Type} `{HT : KeyTotal K}
  (key : Insumo -> K) (S : list Insumo) :
  (forall rnd rnd',
      fst (quick_sort key S rnd) = fst (quick_sort key S rnd')) /\
  (forall rnd, fst (quick_sort key S rnd) = merge_sort key S) /\
  (forall r, quick_sort_run key S r -> r = merge_sort key S) /\
  (forall rnd a b, key_eq (key a) (key b) = true ->
                   antes a b S -> antes a b (fst (quick_sort key S rnd))) /\
  (forall rnd v,
      com_chave key v (fst (quick_sort key S rnd)) = com_chave key v S) /\
  (forall pivot v,
      com_chave key v (menores key pivot S) ++
      com_chave key v (iguais key pivot S) ++
      com_chave key v (maiores key pivot S) = com_chave key v S).
Proof.
  assert (Hrun : forall r, quick_sort_run key S r -> r = merge_sort key S).
  { intros r Hr. apply (sorted_stable_unique key).
    - apply (run_sorted key S). exact Hr.
    - apply merge_sort_sorted.
    - intros v. rewrite (run_com_chave key v S r Hr), merge_sort_com_chave.
      reflexivity. }
  assert (Hqm : forall rnd, fst (quick_sort key S rnd) = merge_sort key S)
    by (intros rnd; apply Hrun, quick_sort_in_run).
  split; [|split; [|split; [|split; [|split]]]].
  - intros rnd rnd'. rewrite !Hqm. reflexivity.
  - exact Hqm.
  - exact Hrun.
  - intros rnd a b Hab Hbefore.
    apply (com_chave_antes key S); [|exact Hab|exact Hbefore].
    intros v. apply quick_sort_com_chave.
  - intros rnd v. apply quick_sort_com_chave.
  - intros pivot v. apply partition_com_chave.
Qed.

Lemma quick_sort_equals_merge_sort_witness :
  KeyTotal string /\
  fst (quick_sort chave_nome
         [Exemplo.x; Exemplo.m; Exemplo.x'; Exemplo.a] Exemplo.rnd) =
  merge_sort chave_nome [Exemplo.x; Exemplo.m; Exemplo.x'; Exemplo.a].
Proof.
  split; [exact string_KeyTotal|].
  exact (proj1 (proj2 (quick_sort_equals_merge_sort chave_nome
                         [Exemplo.x; Exemplo.m; Exemplo.x'; Exemplo.a]))
           Exemplo.rnd).
Defined.

(** ** Searches: the specification's properties *)

Lemma latin1_lower_of_ascii (s : string) :
  is_ascii s = true -> lower_latin1 s = ascii_lower s.
Proof.
  induction s as [|c s IH]; [reflexivity|].
  cbn [is_ascii lower_latin1 ascii_lower].
  intros [Hc Hs]%andb_true_iff. apply Nat.ltb_lt in Hc.
  destruct (Nat.eqb_spec (nat_of_ascii c) 195) as [He|_]; [lia|].
  rewrite (IH Hs). reflexivity.
Qed.

(** The instance to compute with lowers ASCII strings as [str.lower]
    does. *)
#[export] Instance latin1_LowerSpec : LowerSpec (L := latin1_StrLower).
Proof. split. exact latin1_lower_of_ascii. Qed.

(** On names written in ASCII, to match is to be equal when the case of the
    letters is set aside. *)
Lemma coincide_ascii {L : StrLower} {LS : LowerSpec} (nome : string)
  (item : Insumo) :
  is_ascii (insumo item) = true -> is_ascii nome = true ->
  (coincide nome item <-> ascii_lower (insumo item) = ascii_lower nome).
Proof.
  intros Hi Hn. unfold coincide.
  rewrite (lower_of_ascii _ Hi), (lower_of_ascii _ Hn). reflexivity.
Qed.

(** C4. [busca_sequencial] returns the first element, in the order of the
    list, whose name matches the target without regard to case: no element
    before it matches; it returns [None] when no element matches, and so on
    the empty list.  To match is to have the same name once both are
    lowered by [str.lower]; for names written in ASCII this is to be equal
    when the case of the letters is set aside. *)
Theorem busca_sequencial_first_match {L : StrLower} {LS : LowerSpec}
  (insumos : list Insumo) (nome : string) :
  busca_sequencial [] nome = None /\
  match busca_sequencial insumos nome with
  | Some item =>
      exists l1 l2, insumos = l1 ++ item :: l2 /\
                    coincide nome item /\
                    Forall (fun i => ~ coincide nome i) l1
  | None => Forall (fun i => ~ coincide nome i) insumos
  end /\
  (forall item,
      is_ascii (insumo item) = true -> is_ascii nome = true ->
      (coincide nome item <->
       ascii_lower (insumo item) = ascii_lower nome)).
Proof.
  split; [reflexivity|]. split; [|intros item; apply coincide_ascii].
  induction insumos as [|item resto IH]; cbn.
  - constructor.
  - destruct (String.eqb_spec (lower (insumo item)) (lower nome)) as [He|Hne].
    + exists [], resto. repeat split; [exact He | constructor].
    + destruct (busca_sequencial resto nome) as [found|].
      * destruct IH as (l1 & l2 & -> & Hm & Hno).
        exists (item :: l1), l2. repeat split; [exact Hm|].
        constructor; assumption.
      * constructor; assumption.
Qed.

Lemma busca_sequencial_first_match_witness :
  LowerSpec (L := latin1_StrLower) /\
  busca_sequencial [Exemplo.x; Exemplo.a; Exemplo.m; Exemplo.x'] "x" =
    Some Exemplo.x /\
  (coincide "x" Exemplo.x <->
   ascii_lower (insumo Exemplo.x) = ascii_lower "x").
Proof.
  split; [exact latin1_LowerSpec|].
  split; [reflexivity|].
  apply (proj2 (proj2 (busca_sequencial_first_match
                         [Exemplo.x; Exemplo.a; Exemplo.m; Exemplo.x']
                         "x"))); reflexivity.
Defined.

Lemma busca_binaria_loop_eq {L : StrLower} (l : list Insumo) (nome : string)
  (lo hi : Z) :
  busca_binaria_loop l nome lo hi =
  if (lo <=? hi)%Z then
    match busca_binaria_body l nome lo hi with
    | Raise e => Raise e
    | Ret (Return r) => Ret r
    | Ret (Continue lo' hi') => busca_binaria_loop l nome lo' hi'
    end
  else Ret None.
Proof.
  funelim (busca_binaria_loop l nome lo hi);
    try match goal with
      | Hb : busca_binaria_body _ _ _ _ = _ |- _ => rewrite Hb
      end.
  - destruct (Z.leb_spec lo hi); [lia | reflexivity].
  - destruct (Z.leb_spec lo hi); [reflexivity | lia].
  - destruct (Z.leb_spec lo hi); [reflexivity | lia].
  - destruct (Z.leb_spec lo hi); [reflexivity | lia].
Qed.

Lemma getitem_in_range (l : list Insumo) (i : Z) :
  (0 <= i < Z.of_nat (length l))%Z ->
  exists item, getitem l i = Ret item /\
               nth_error l (Z.to_nat i) = Some item.
Proof.
  intros Hi. unfold getitem.
  destruct (Z.ltb_spec i 0) as [Hneg|_]; [lia|].
  destruct (Z.leb_spec 0 i) as [_|Hneg]; [|lia].
  destruct (Z.ltb_spec i (Z.of_nat (length l))) as [_|Hbig]; [|lia].
  cbn [andb].
  destruct (nth_error l (Z.to_nat i)) as [item|] eqn:Hnth.
  - exists item. auto.
  - apply nth_error_None in Hnth. lia.
Qed.

Lemma midpoint_bounds (lo hi : Z) :
  (lo <= hi)%Z -> (lo <= (lo + hi) / 2 <= hi)%Z.
Proof.
  intros Hle.
  split; [apply Z.div_le_lower_bound | apply Z.div_le_upper_bound]; lia.
Qed.

(** One pass through the loop body, when the bounds are inside the list:
    the index read is inside the list, nothing is raised, and the pass
    either returns the element read or goes on with a strictly smaller
    interval that is again inside the list. *)
Lemma busca_binaria_body_step {L : StrLower} (l : list Insumo)
  (nome : string) (lo hi : Z) :
  (0 <= lo)%Z -> (hi < Z.of_nat (length l))%Z -> (lo <= hi)%Z ->
  let mid := ((lo + hi) / 2)%Z in
  (0 <= mid < Z.of_nat (length l))%Z /\
  exists item,
    nth_error l (Z.to_nat mid) = Some item /\
    busca_binaria_body l nome lo hi =
    Ret (if String.eqb (lower (insumo item)) nome then Return (Some item)
         else if String.ltb (lower (insumo item)) nome
              then Continue (mid + 1)%Z hi
              else Continue lo (mid - 1)%Z).
Proof.
  intros Hlo Hhi Hle mid.
  pose proof (midpoint_bounds lo hi Hle) as Hmid. fold mid in Hmid.
  split; [lia|].
  destruct (getitem_in_range l mid) as (item & Hget & Hnth); [lia|].
  exists item. split; [exact Hnth|].
  unfold busca_binaria_body. fold mid. rewrite Hget. cbn [bind].
  destruct (String.eqb _ _); [reflexivity|].
  destruct (String.ltb _ _); reflexivity.
Qed.

(** The loop never raises when it starts inside the list. *)
Lemma busca_binaria_loop_returns {L : StrLower} (l : list Insumo)
  (nome : string) :
  forall n lo hi,
    Z.to_nat (hi - lo + 1) <= n ->
    (0 <= lo)%Z -> (hi < Z.of_nat (length l))%Z ->
    exists r, busca_binaria_loop l nome lo hi = Ret r /\
              match r with
              | Some item => In item l /\ lower (insumo item) = nome
              | None => True
              end.
Proof.
  induction n as [|n IH]; intros lo hi Hn Hlo Hhi;
    rewrite busca_binaria_loop_eq;
    destruct (Z.leb_spec lo hi) as [Hle|Hgt];
    try (exists None; split; [reflexivity | exact I]).
  - lia.
  - destruct (busca_binaria_body_step l nome lo hi Hlo Hhi Hle)
      as (Hmid & item & Hnth & ->).
    destruct (String.eqb_spec (lower (insumo item)) nome) as [He|Hne].
    + exists (Some item). split; [reflexivity|].
      split; [eapply nth_error_In; exact Hnth | exact He].
    + pose proof (midpoint_bounds lo hi Hle) as Hin.
      destruct (String.ltb _ _); apply IH; lia.
Qed.

Lemma string_le_lt_trans (a b c : string) :
  String.leb a b = true -> String.ltb b c = true -> String.ltb a c = true.
Proof. exact (key_le_lt_trans (K := string) a b c). Qed.

Lemma string_lt_le_trans (a b c : string) :
  String.ltb a b = true -> String.leb b c = true -> String.ltb a c = true.
Proof. exact (key_lt_le_trans (K := string) a b c). Qed.

Lemma StronglySorted_nth_error (R : Insumo -> Insumo -> Prop)
  (l : list Insumo) :
  StronglySorted R l ->
  forall i j a b, i < j ->
    nth_error l i = Some a -> nth_error l j = Some b -> R a b.
Proof.
  induction 1 as [|x l Hs IH Hx]; intros i j a b Hij Ha Hb.
  - destruct i; discriminate.
  - destruct j as [|j]; [lia|]. cbn in Hb. destruct i as [|i]; cbn in Ha.
    + injection Ha as <-. rewrite Forall_forall in Hx.
      apply Hx. eapply nth_error_In. exact Hb.
    + apply (IH i j); [lia | assumption | assumption].
Qed.

(** On a list sorted by lowered name, with every element before [lo] below
    the target and every element after [hi] above it, a loop that ends with
    [None] has seen that no element has the target as lowered name. *)
Lemma busca_binaria_loop_absent {L : StrLower} (l : list Insumo)
  (nome : string) :
  StronglySorted (key_ord chave_nome) l ->
  forall n lo hi,
    Z.to_nat (hi - lo + 1) <= n ->
    (0 <= lo)%Z -> (hi < Z.of_nat (length l))%Z ->
    (forall i x, (0 <= i < lo)%Z -> nth_error l (Z.to_nat i) = Some x ->
                 String.ltb (chave_nome x) nome = true) ->
    (forall i x, (hi < i)%Z -> nth_error l (Z.to_nat i) = Some x ->
                 String.ltb nome (chave_nome x) = true) ->
    busca_binaria_loop l nome lo hi = Ret None ->
    forall x, In x l -> chave_nome x <> nome.
Proof.
  intros Hsorted.
  assert (Hend : forall lo hi, (lo > hi)%Z ->
    (forall i x, (0 <= i < lo)%Z -> nth_error l (Z.to_nat i) = Some x ->
                 String.ltb (chave_nome x) nome = true) ->
    (forall i x, (hi < i)%Z -> nth_error l (Z.to_nat i) = Some x ->
                 String.ltb nome (chave_nome x) = true) ->
    forall x, In x l -> chave_nome x <> nome).
  { intros lo hi Hgt HL HR x Hx Heq.
    apply In_nth_error in Hx as [k Hk].
    pose proof (key_lt_irrefl (K := string) nome) as Hirr. cbn in Hirr.
    destruct (Z_lt_ge_dec (Z.of_nat k) lo) as [Hk_lo|Hk_lo].
    - specialize (HL (Z.of_nat k) x). rewrite Nat2Z.id in HL.
      rewrite Heq in HL. rewrite HL in Hirr; [discriminate | lia | exact Hk].
    - specialize (HR (Z.of_nat k) x). rewrite Nat2Z.id in HR.
      rewrite Heq in HR. rewrite HR in Hirr; [discriminate | lia | exact Hk]. }
  induction n as [|n IH]; intros lo hi Hn Hlo Hhi HL HR;
    rewrite busca_binaria_loop_eq;
    destruct (Z.leb_spec lo hi) as [Hle|Hgt];
    try (intros _; apply (Hend lo hi); [lia | exact HL | exact HR]).
  destruct (busca_binaria_body_step l nome lo hi Hlo Hhi Hle)
      as (Hmid & item & Hnth & ->).
    pose proof (midpoint_bounds lo hi Hle) as Hin.
    set (mid := ((lo + hi) / 2)%Z) in *.
    destruct (String.eqb_spec (lower (insumo item)) nome) as [He|Hne];
      [discriminate|].
    destruct (String.ltb (lower (insumo item)) nome) eqn:Hlt.
    - apply IH; [lia | lia | lia | | exact HR].
      intros i x Hi Hx.
      destruct (Z_lt_ge_dec i lo) as [Hi_lo|Hi_lo];
        [apply (HL i x); [lia | exact Hx]|].
      apply (string_le_lt_trans _ (chave_nome item)); [|exact Hlt].
      change (key_ord chave_nome x item).
      destruct (Z.eq_dec i mid) as [->|Hi_mid].
      * rewrite Hnth in Hx. injection Hx as <-. apply key_le_refl.
      * apply (StronglySorted_nth_error _ l Hsorted
                 (Z.to_nat i) (Z.to_nat mid)); [lia | exact Hx | exact Hnth].
    - assert (Hgt : String.ltb nome (lower (insumo item)) = true).
      { destruct (key_trichotomy (K := string) (lower (insumo item)) nome)
          as [(Hl & _)|[(_ & Heq & _)|(_ & _ & Hg)]]; cbn in *.
        - congruence.
        - apply String.eqb_eq in Heq. contradiction.
        - exact Hg. }
      apply IH; [lia | lia | lia | exact HL |].
      intros i x Hi Hx.
      destruct (Z_lt_ge_dec hi i) as [Hi_hi|Hi_hi];
        [apply (HR i x); [lia | exact Hx]|].
      apply (string_lt_le_trans _ (chave_nome item)); [exact Hgt|].
      change (key_ord chave_nome item x).
      destruct (Z.eq_dec i mid) as [->|Hi_mid].
      * rewrite Hnth in Hx. injection Hx as <-. apply key_le_refl.
      * apply (StronglySorted_nth_error _ l Hsorted
                 (Z.to_nat mid) (Z.to_nat i)); [lia | exact Hnth | exact Hx].
Qed.

Lemma Sorted_agree (R R' : Insumo -> Insumo -> Prop) (P : Insumo -> Prop)
  (l : list Insumo) :
  Forall P l ->
  (forall a b, P a -> P b -> R a b -> R' a b) ->
  Sorted R l -> Sorted R' l.
Proof.
  intros HP Himp HS.
  induction HS as [|a l HS IH Hd]; constructor;
    inversion HP as [|? ? Pa Pl]; subst.
  - apply IH. exact Pl.
  - destruct Hd as [|b l Hab]; constructor.
    inversion Pl; subst. apply Himp; assumption.
Qed.

(** C5. On a list sorted in ascending order of lowered name,
    [busca_binaria] returns a record of the list whose name matches the
    target without regard to case when the list has one, and [None] when it
    has none; on the empty list it returns [None] and raises nothing.  The
    names are lowered by [str.lower]: for names written in ASCII the list is
    in ascending order of the names with the case of the letters set aside,
    and to match is to be equal when the case is set aside. *)
Theorem busca_binaria_sorted {L : StrLower} {LS : LowerSpec}
  (insumos : list Insumo) (nome : string) :
  nao_decrescente chave_nome insumos ->
  ((exists x, In x insumos /\ coincide nome x) ->
   exists r, busca_binaria insumos nome = Ret (Some r) /\
             In r insumos /\ coincide nome r) /\
  ((forall x, In x insumos -> ~ coincide nome x) ->
   busca_binaria insumos nome = Ret None) /\
  busca_binaria [] nome = Ret None /\
  (Forall (fun i => is_ascii (insumo i) = true) insumos ->
   nao_decrescente chave_ascii insumos) /\
  (forall item,
      is_ascii (insumo item) = true -> is_ascii nome = true ->
      (coincide nome item <->
       ascii_lower (insumo item) = ascii_lower nome)).
Proof.
  intros Hsorted0. pose proof Hsorted0 as Hsorted.
  apply nao_decrescente_strong in Hsorted.
  unfold busca_binaria.
  set (hi := (Z.of_nat (length insumos) - 1)%Z).
  destruct (busca_binaria_loop_returns insumos (lower nome)
              (Z.to_nat (hi - 0 + 1)) 0 hi) as (r & Hr & Hfound);
    [lia | lia | unfold hi; lia |].
  split; [|split; [|split; [|split]]].
  - intros (x & Hx & Hmatch). destruct r as [item|].
    + exists item. split; [exact Hr | exact Hfound].
    + exfalso.
      apply (busca_binaria_loop_absent insumos (lower nome) Hsorted
               (Z.to_nat (hi - 0 + 1)) 0 hi) with (x := x);
        try (exact Hr || exact Hx || exact Hmatch || lia).
      intros i y Hi Hy. exfalso.
      assert (Hlen : Z.to_nat i < length insumos)
        by (apply nth_error_Some; congruence).
      unfold hi in Hi. lia.
  - intros Hnone. destruct r as [item|]; [|exact Hr].
    destruct Hfound as [Hin Hmatch]. elim (Hnone item Hin). exact Hmatch.
  - rewrite busca_binaria_loop_eq. reflexivity.
  - intros Hascii.
    apply (Sorted_agree (key_ord chave_nome) (key_ord chave_ascii)
             (fun i => is_ascii (insumo i) = true));
      [exact Hascii | | exact Hsorted0].
    intros a b Ha Hb. unfold key_ord, chave_nome, chave_ascii.
    rewrite (lower_of_ascii _ Ha), (lower_of_ascii _ Hb). exact (fun H => H).
  - intros item. apply coincide_ascii.
Qed.

Lemma busca_binaria_sorted_witness :
  LowerSpec (L := latin1_StrLower) /\
  nao_decrescente chave_nome [Exemplo.a; Exemplo.m; Exemplo.x] /\
  exists r, busca_binaria [Exemplo.a; Exemplo.m; Exemplo.x] "m" =
              Ret (Some r) /\
            In r [Exemplo.a; Exemplo.m; Exemplo.x] /\ coincide "m" r.
Proof.
  assert (HS : nao_decrescente chave_nome [Exemplo.a; Exemplo.m; Exemplo.x])
    by (repeat constructor).
  split; [exact latin1_LowerSpec|]. split; [exact HS|].
  apply (proj1 (busca_binaria_sorted
                  [Exemplo.a; Exemplo.m; Exemplo.x] "m" HS)).
  exists Exemplo.m. split; [right; left; reflexivity | reflexivity].
Defined.

(** C6. On any list, sorted or not, [busca_binaria] returns a record or
    [None] and raises nothing.  In every pass of its loop whose bounds are
    inside the list, the index read is inside the list, and the pass either
    returns or goes on with bounds that are again inside the list and
    strictly closer; the loop ends when [lo > hi]. *)
Theorem busca_binaria_total {L : StrLower} (insumos : list Insumo)
  (nome : string) :
  (exists r, busca_binaria insumos nome = Ret r) /\
  (forall lo hi,
      (0 <= lo)%Z -> (hi < Z.of_nat (length insumos))%Z -> (lo <= hi)%Z ->
      (0 <= (lo + hi) / 2 < Z.of_nat (length insumos))%Z /\
      ((exists item, busca_binaria_body insumos (lower nome) lo hi =
                     Ret (Return (Some item))) \/
       (exists lo' hi',
           busca_binaria_body insumos (lower nome) lo hi =
           Ret (Continue lo' hi') /\
           (0 <= lo')%Z /\ (hi' < Z.of_nat (length insumos))%Z /\
           (hi' - lo' < hi - lo)%Z))) /\
  (forall lo hi, (lo > hi)%Z ->
                 busca_binaria_loop insumos (lower nome) lo hi = Ret None).
Proof.
  split; [|split].
  - unfold busca_binaria.
    set (hi := (Z.of_nat (length insumos) - 1)%Z).
    destruct (busca_binaria_loop_returns insumos (lower nome)
                (Z.to_nat (hi - 0 + 1)) 0 hi) as (r & Hr & _);
      [lia | lia | unfold hi; lia |].
    exists r. exact Hr.
  - intros lo hi Hlo Hhi Hle.
    destruct (busca_binaria_body_step insumos (lower nome) lo hi Hlo Hhi Hle)
      as (Hmid & item & _ & ->).
    pose proof (midpoint_bounds lo hi Hle) as Hin.
    split; [exact Hmid|].
    destruct (String.eqb _ _); [left; exists item; reflexivity|].
    right. destruct (String.ltb _ _).
    + exists ((lo + hi) / 2 + 1)%Z, hi. repeat split; lia.
    + exists lo, ((lo + hi) / 2 - 1)%Z. repeat split; lia.
  - intros lo hi Hgt. rewrite busca_binaria_loop_eq.
    destruct (Z.leb_spec lo hi); [lia | reflexivity].
Qed.

(** [busca_binaria] on a list that is not sorted: it answers [None] although
    the list has the name, and raises nothing. *)
Example busca_binaria_unsorted :
  busca_binaria [Exemplo.x; Exemplo.m; Exemplo.a] "x" = Ret None.
Proof. reflexivity. Qed.

(** Names of the catalogue in capital letters, with the instance to compute
    with: the accented capitals are lowered as [str.lower] lowers them, so
    the searches find the records written in small letters. *)
Example lower_catalogue :
  lower "SWAB ESTÉRIL" = "swab estéril"%string /\
  lower "LUVA NITRÍLICA G" = "luva nitrílica g"%string /\
  map lower INSUMOS =
    ["agulha 25x7"; "swab estéril"; "seringa 5ml"; "tubo edta 4ml";
     "luva nitrílica m"; "luva nitrílica g"; "tubo citrato 3,2%"]%string.
Proof. repeat split. Qed.

Example busca_sequencial_catalogue :
  busca_sequencial [mkInsumo "Swab estéril" 1 "PCR" None] "SWAB ESTÉRIL" =
    Some (mkInsumo "Swab estéril" 1 "PCR" None) /\
  busca_sequencial [mkInsumo "É" 1 "PCR" None; mkInsumo "é" 2 "PCR" None] "é"
    = Some (mkInsumo "É" 1 "PCR" None).
Proof. split; reflexivity. Qed.

Example busca_binaria_catalogue :
  busca_binaria
    (merge_sort chave_nome (map (fun n => mkInsumo n 1 "PCR" None) INSUMOS))
    "LUVA NITRÍLICA G" = Ret (Some (mkInsumo "Luva nitrílica G" 1 "PCR" None)).
Proof. reflexivity. Qed.

Example merge_sort_accents :
  merge_sort chave_nome
    [mkInsumo "é" 1 "PCR" None; mkInsumo "É" 2 "PCR" None] =
  [mkInsumo "é" 1 "PCR" None; mkInsumo "É" 2 "PCR" None].
Proof. reflexivity. Qed.

(** ** Queue and stack: the specification's properties *)

Lemma registrar_todos_q (f : FilaConsumo.t) (es : list entrada) :
  FilaConsumo.registrar_todos f es =
  FilaConsumo.mk (FilaConsumo._q f ++ es).
Proof.
  unfold FilaConsumo.registrar_todos. revert f.
  induction es as [|e es IH]; intros [q]; cbn.
  - rewrite app_nil_r. reflexivity.
  - rewrite IH. cbn. unfold FilaConsumo.append.
    rewrite <- app_assoc. destruct e. reflexivity.
Qed.

Lemma proximos_empty (k : nat) :
  FilaConsumo.proximos k FilaConsumo.init =
  Ret (repeat None k, FilaConsumo.init).
Proof.
  induction k as [|k IH]; [reflexivity|].
  cbn [FilaConsumo.proximos]. change (FilaConsumo.proximo FilaConsumo.init)
    with (Ret (@None entrada, FilaConsumo.init)).
  cbn [bind snd fst]. rewrite IH. reflexivity.
Qed.

Lemma proximos_drain (q : list entrada) (k : nat) :
  FilaConsumo.proximos (length q + k) (FilaConsumo.mk q) =
  Ret (map Some q ++ repeat None k, FilaConsumo.init).
Proof.
  induction q as [|e q IH]; [apply proximos_empty|].
  cbn [length Nat.add FilaConsumo.proximos].
  change (FilaConsumo.proximo (FilaConsumo.mk (e :: q)))
    with (Ret (Some e, FilaConsumo.mk q)).
  cbn [bind snd fst]. rewrite IH. reflexivity.
Qed.

Lemma consultar_todos_stack (p : PilhaConsultas.t) (es : list entrada) :
  PilhaConsultas.consultar_todos p es =
  PilhaConsultas.mk (PilhaConsultas._stack p ++ es).
Proof.
  unfold PilhaConsultas.consultar_todos. revert p.
  induction es as [|e es IH]; intros [s]; cbn.
  - rewrite app_nil_r. reflexivity.
  - rewrite IH. cbn. unfold PilhaConsultas.append.
    rewrite <- app_assoc. destruct e. reflexivity.
Qed.

Lemma ultimo_snoc (s : list entrada) (e : entrada) :
  PilhaConsultas.ultimo (PilhaConsultas.mk (s ++ [e])) =
  Ret (Some e, PilhaConsultas.mk s).
Proof.
  unfold PilhaConsultas.ultimo, PilhaConsultas.pop, truthy.
  cbn [PilhaConsultas._stack].
  rewrite length_app, rev_app_distr. cbn [length rev app].
  rewrite Nat.add_1_r. cbn [Nat.eqb negb bind fst snd].
  rewrite rev_involutive. reflexivity.
Qed.

Lemma ultimos_empty (k : nat) :
  PilhaConsultas.ultimos k PilhaConsultas.init =
  Ret (repeat None k, PilhaConsultas.init).
Proof.
  induction k as [|k IH]; [reflexivity|].
  cbn [PilhaConsultas.ultimos].
  change (PilhaConsultas.ultimo PilhaConsultas.init)
    with (Ret (@None entrada, PilhaConsultas.init)).
  cbn [bind snd fst]. rewrite IH. reflexivity.
Qed.

Lemma ultimos_drain (s : list entrada) (k : nat) :
  PilhaConsultas.ultimos (length s + k) (PilhaConsultas.mk s) =
  Ret (map Some (rev s) ++ repeat None k, PilhaConsultas.init).
Proof.
  induction s as [|e s IH] using rev_ind; [apply ultimos_empty|].
  rewrite length_app, rev_app_distr. cbn [length rev app map].
  rewrite Nat.add_1_r. cbn [Nat.add PilhaConsultas.ultimos].
  rewrite ultimo_snoc. cbn [bind snd fst]. rewrite IH. reflexivity.
Qed.

(** C7. The queue is first-in-first-out.  After registering [a], [b], [c] on
    a fresh queue, three calls of [proximo] return the entries of [a], [b]
    and [c] in this order and a fourth returns [None].  In general the
    entries held by a queue and those registered after them are returned in
    the order of insertion, and then [None]. *)
Theorem fila_fifo :
  (forall (a b c : Insumo) (t1 t2 t3 : datetime),
      let f0 := FilaConsumo.registrar_consumo
                  (FilaConsumo.registrar_consumo
                     (FilaConsumo.registrar_consumo FilaConsumo.init t1 a)
                     t2 b) t3 c in
      exists f1 f2 f3,
        FilaConsumo.proximo f0 = Ret (Some (t1, a), f1) /\
        FilaConsumo.proximo f1 = Ret (Some (t2, b), f2) /\
        FilaConsumo.proximo f2 = Ret (Some (t3, c), f3) /\
        FilaConsumo.proximo f3 = Ret (None, f3)) /\
  (forall (f : FilaConsumo.t) (es : list entrada) (k : nat),
      FilaConsumo.proximos (FilaConsumo.len f + length es + k)
        (FilaConsumo.registrar_todos f es) =
      Ret (map Some (FilaConsumo.iter f ++ es) ++ repeat None k,
           FilaConsumo.init)).
Proof.
  split.
  - intros a b c t1 t2 t3 f0.
    exists (FilaConsumo.mk [(t2, b); (t3, c)]), (FilaConsumo.mk [(t3, c)]),
      FilaConsumo.init.
    repeat split.
  - intros f es k. rewrite registrar_todos_q.
    unfold FilaConsumo.len, FilaConsumo.iter.
    rewrite <- length_app. apply proximos_drain.
Qed.

(** C8. The stack is last-in-first-out.  After consulting [a], [b], [c] on a
    fresh stack, three calls of [ultimo] return the entries of [c], [b] and
    [a] in this order and a fourth returns [None].  In general the entries
    are returned in the reverse of the order of insertion, and then
    [None]. *)
Theorem pilha_lifo :
  (forall (a b c : Insumo) (t1 t2 t3 : datetime),
      let p0 := PilhaConsultas.consultar
                  (PilhaConsultas.consultar
                     (PilhaConsultas.consultar PilhaConsultas.init t1 a)
                     t2 b) t3 c in
      exists p1 p2 p3,
        PilhaConsultas.ultimo p0 = Ret (Some (t3, c), p1) /\
        PilhaConsultas.ultimo p1 = Ret (Some (t2, b), p2) /\
        PilhaConsultas.ultimo p2 = Ret (Some (t1, a), p3) /\
        PilhaConsultas.ultimo p3 = Ret (None, p3)) /\
  (forall (p : PilhaConsultas.t) (es : list entrada) (k : nat),
      PilhaConsultas.ultimos (PilhaConsultas.len p + length es + k)
        (PilhaConsultas.consultar_todos p es) =
      Ret (map Some (rev (PilhaConsultas.iter p ++ es)) ++ repeat None k,
           PilhaConsultas.init)).
Proof.
  split.
  - intros a b c t1 t2 t3 p0.
    exists (PilhaConsultas.mk [(t1, a); (t2, b)]),
      (PilhaConsultas.mk [(t1, a)]), PilhaConsultas.init.
    repeat split.
  - intros p es k. rewrite consultar_todos_stack.
    unfold PilhaConsultas.len, PilhaConsultas.iter.
    rewrite <- length_app. apply ultimos_drain.
Qed.

(** C9. On an empty queue [proximo], and on an empty stack [ultimo], return
    [None], raise nothing and leave the container as it was, of length 0;
    on any queue or stack they raise nothing. *)
Theorem empty_containers_absent :
  (forall f, FilaConsumo.len f = 0 ->
             exists f', FilaConsumo.proximo f = Ret (None, f') /\
                        f' = f /\ FilaConsumo.len f' = 0) /\
  (forall f, exists r, FilaConsumo.proximo f = Ret r) /\
  (forall p, PilhaConsultas.len p = 0 ->
             exists p', PilhaConsultas.ultimo p = Ret (None, p') /\
                        p' = p /\ PilhaConsultas.len p' = 0) /\
  (forall p, exists r, PilhaConsultas.ultimo p = Ret r).
Proof.
  split; [|split; [|split]].
  - intros [[|e q]] Hlen; [|discriminate].
    eexists. repeat split.
  - intros [[|e q]]; eexists; reflexivity.
  - intros [[|e s]] Hlen; [|discriminate].
    eexists. repeat split.
  - intros [s]. destruct s as [|e s _] using rev_ind.
    + eexists; reflexivity.
    + rewrite ultimo_snoc. eexists; reflexivity.
Qed.

(** * Further properties of the code *)

(** ** Queue and stack *)

(** X1. On a queue that is not empty, [proximo] returns the head entry and
    leaves the other entries in their order; the length goes down by
    one. *)
Theorem fila_proximo_nonempty (f : FilaConsumo.t) :
  0 < FilaConsumo.len f ->
  exists e f',
    FilaConsumo.proximo f = Ret (Some e, f') /\
    FilaConsumo.iter f = e :: FilaConsumo.iter f' /\
    FilaConsumo.len f' = FilaConsumo.len f - 1.
Proof.
  destruct f as [[|e q]]; cbn; intros Hlen; [lia|].
  exists e, (FilaConsumo.mk q). repeat split. cbn. lia.
Qed.

Lemma fila_proximo_nonempty_witness :
  0 < FilaConsumo.len
        (FilaConsumo.registrar_consumo FilaConsumo.init 7%Z Exemplo.a) /\
  exists e f',
    FilaConsumo.proximo
      (FilaConsumo.registrar_consumo FilaConsumo.init 7%Z Exemplo.a) =
    Ret (Some e, f') /\
    FilaConsumo.iter
      (FilaConsumo.registrar_consumo FilaConsumo.init 7%Z Exemplo.a) =
    e :: FilaConsumo.iter f' /\
    FilaConsumo.len f' =
    FilaConsumo.len
      (FilaConsumo.registrar_consumo FilaConsumo.init 7%Z Exemplo.a) - 1.
Proof.
  assert (Hlen : 0 < FilaConsumo.len
                       (FilaConsumo.registrar_consumo FilaConsumo.init 7%Z
                          Exemplo.a)) by (cbn; lia).
  split; [exact Hlen|].
  exact (fila_proximo_nonempty _ Hlen).
Defined.

(** X2. A record registered on an empty queue is the next one returned; on a
    queue that is not empty, registering does not change what [proximo]
    returns, and the new entry stays in the queue that is left. *)
Theorem fila_registrar_then_proximo :
  (forall t x,
      FilaConsumo.proximo
        (FilaConsumo.registrar_consumo FilaConsumo.init t x) =
      Ret (Some (t, x), FilaConsumo.init)) /\
  (forall f e f' t x,
      FilaConsumo.proximo f = Ret (Some e, f') ->
      FilaConsumo.proximo (FilaConsumo.registrar_consumo f t x) =
      Ret (Some e, FilaConsumo.registrar_consumo f' t x)).
Proof.
  split; [reflexivity|].
  intros [[|h q]] e f' t x; cbn; intros Hp; [discriminate|].
  injection Hp as <- <-. reflexivity.
Qed.

(** X3. [n] calls of [proximo] return the first [n] entries in order,
    then [None] for the calls beyond the length, and leave the entries after
    the first [n]. *)
Theorem fila_proximos_partial (n : nat) (f : FilaConsumo.t) :
  FilaConsumo.proximos n f =
  Ret (map Some (firstn n (FilaConsumo.iter f)) ++
       repeat None (n - FilaConsumo.len f),
       FilaConsumo.mk (skipn n (FilaConsumo.iter f))).
Proof.
  destruct f as [q]. unfold FilaConsumo.iter, FilaConsumo.len. cbn.
  revert q. induction n as [|n IH]; intros q; [reflexivity|].
  cbn [FilaConsumo.proximos]. destruct q as [|e q].
  - change (FilaConsumo.proximo (FilaConsumo.mk []))
      with (Ret (@None entrada, FilaConsumo.mk [])).
    cbn [bind fst snd]. rewrite IH. destruct n; reflexivity.
  - change (FilaConsumo.proximo (FilaConsumo.mk (e :: q)))
      with (Ret (Some e, FilaConsumo.mk q)).
    cbn [bind fst snd]. rewrite IH. reflexivity.
Qed.

(** X4. [ultimo] right after [consultar] returns the entry just put and
    gives back the stack as it was before. *)
Theorem pilha_push_pop (p : PilhaConsultas.t) (t : datetime) (x : Insumo) :
  PilhaConsultas.ultimo (PilhaConsultas.consultar p t x) =
  Ret (Some (t, x), p).
Proof. destruct p as [s]. apply ultimo_snoc. Qed.

(** X5. On a stack that is not empty, [ultimo] returns the entry stored
    last and leaves the entries before it; the length goes down by one. *)
Theorem pilha_ultimo_nonempty (p : PilhaConsultas.t) :
  0 < PilhaConsultas.len p ->
  exists e p',
    PilhaConsultas.ultimo p = Ret (Some e, p') /\
    PilhaConsultas.iter p = PilhaConsultas.iter p' ++ [e] /\
    PilhaConsultas.len p' = PilhaConsultas.len p - 1.
Proof.
  destruct p as [s]. destruct s as [|e s _] using rev_ind;
    cbn; intros Hlen; [lia|].
  exists e, (PilhaConsultas.mk s). rewrite ultimo_snoc.
  repeat split. cbn. rewrite length_app. cbn. lia.
Qed.

Lemma pilha_ultimo_nonempty_witness :
  0 < PilhaConsultas.len
        (PilhaConsultas.consultar PilhaConsultas.init 7%Z Exemplo.a) /\
  exists e p',
    PilhaConsultas.ultimo
      (PilhaConsultas.consultar PilhaConsultas.init 7%Z Exemplo.a) =
    Ret (Some e, p') /\
    PilhaConsultas.iter
      (PilhaConsultas.consultar PilhaConsultas.init 7%Z Exemplo.a) =
    PilhaConsultas.iter p' ++ [e] /\
    PilhaConsultas.len p' =
    PilhaConsultas.len
      (PilhaConsultas.consultar PilhaConsultas.init 7%Z Exemplo.a) - 1.
Proof.
  assert (Hlen : 0 < PilhaConsultas.len
                       (PilhaConsultas.consultar PilhaConsultas.init 7%Z
                          Exemplo.a)) by (cbn; lia).
  split; [exact Hlen|].
  exact (pilha_ultimo_nonempty _ Hlen).
Defined.

(** X6. [n] calls of [ultimo] return the last [n] entries, latest first,
    then [None] for the calls beyond the length, and leave the entries
    before the last [n]. *)
Theorem pilha_ultimos_partial (n : nat) (p : PilhaConsultas.t) :
  PilhaConsultas.ultimos n p =
  Ret (map Some (firstn n (rev (PilhaConsultas.iter p))) ++
       repeat None (n - PilhaConsultas.len p),
       PilhaConsultas.mk
         (firstn (PilhaConsultas.len p - n) (PilhaConsultas.iter p))).
Proof.
  destruct p as [s]. unfold PilhaConsultas.iter, PilhaConsultas.len. cbn.
  revert s. induction n as [|n IH]; intros s.
  - cbn. rewrite Nat.sub_0_r, firstn_all. reflexivity.
  - cbn [PilhaConsultas.ultimos].
    destruct s as [|e s _] using rev_ind.
    + change (PilhaConsultas.ultimo (PilhaConsultas.mk []))
        with (Ret (@None entrada, PilhaConsultas.mk [])).
      cbn [bind fst snd]. rewrite IH. cbn. destruct n; reflexivity.
    + rewrite ultimo_snoc. cbn [bind fst snd]. rewrite IH.
      rewrite rev_app_distr, length_app. cbn [rev app length firstn map].
      replace (length s + 1 - S n) with (length s - n) by lia.
      replace (S n - (length s + 1)) with (n - length s) by lia.
      rewrite firstn_app.
      replace (length s - n - length s) with 0 by lia.
      cbn [firstn]. rewrite app_nil_r. reflexivity.
Qed.

(** ** Searches *)

Lemma busca_sequencial_Some {L : StrLower} (l : list Insumo) (nome : string)
  (r : Insumo) :
  busca_sequencial l nome = Some r -> In r l /\ coincide nome r.
Proof.
  induction l as [|item resto IH]; cbn; [discriminate|].
  destruct (String.eqb_spec (lower (insumo item)) (lower nome)) as [He|Hne].
  - intros [= <-]. split; [left; reflexivity | exact He].
  - intros Hr. destruct (IH Hr) as [Hin Hm]. split; [right|]; assumption.
Qed.

Lemma busca_sequencial_None {L : StrLower} (l : list Insumo)
  (nome : string) :
  busca_sequencial l nome = None <->
  (forall x, In x l -> ~ coincide nome x).
Proof.
  induction l as [|item resto IH]; cbn.
  - split; [intros _ x [] | reflexivity].
  - destruct (String.eqb_spec (lower (insumo item)) (lower nome)) as [He|Hne].
    + split; [discriminate|]. intros Hno. elim (Hno item); [left|]; auto.
    + rewrite IH. split.
      * intros Hno x [<-|Hx]; [exact Hne | apply Hno; exact Hx].
      * intros Hno x Hx. apply Hno. right. exact Hx.
Qed.

(** What [busca_binaria] returns: always a value; a record returned is in
    the list and matches; on a sorted list [None] means that no record
    matches. *)
Lemma busca_binaria_result {L : StrLower} (l : list Insumo)
  (nome : string) :
  exists r, busca_binaria l nome = Ret r /\
            match r with
            | Some item => In item l /\ coincide nome item
            | None => StronglySorted (key_ord chave_nome) l ->
                      forall x, In x l -> ~ coincide nome x
            end.
Proof.
  unfold busca_binaria.
  set (hi := (Z.of_nat (length l) - 1)%Z).
  destruct (busca_binaria_loop_returns l (lower nome)
              (Z.to_nat (hi - 0 + 1)) 0 hi) as (r & Hr & Hfound);
    [lia | lia | unfold hi; lia |].
  exists r. split; [exact Hr|].
  destruct r as [item|]; [exact Hfound|].
  intros Hsorted x Hx.
  apply (busca_binaria_loop_absent l (lower nome) Hsorted
           (Z.to_nat (hi - 0 + 1)) 0 hi); try (exact Hr || exact Hx || lia).
  intros i y Hi Hy. exfalso.
  assert (Hlen : Z.to_nat i < length l)
    by (apply nth_error_Some; congruence).
  unfold hi in Hi. lia.
Qed.

(** X7. Sorted or not, a record that [busca_binaria] returns is an element
    of the list and its name matches the target: an unsorted list can make
    the search miss, never answer with a wrong record. *)
Theorem busca_binaria_found_is_match {L : StrLower} (l : list Insumo)
  (nome : string) (r : Insumo) :
  busca_binaria l nome = Ret (Some r) -> In r l /\ coincide nome r.
Proof.
  intros Hr. destruct (busca_binaria_result l nome) as (r' & Hr' & Hspec).
  rewrite Hr in Hr'. injection Hr' as <-. exact Hspec.
Qed.

Lemma busca_binaria_found_is_match_witness :
  busca_binaria [Exemplo.x; Exemplo.m; Exemplo.a] "M" =
    Ret (Some Exemplo.m) /\
  In Exemplo.m [Exemplo.x; Exemplo.m; Exemplo.a] /\
  coincide "M" Exemplo.m.
Proof.
  assert (Hr : busca_binaria [Exemplo.x; Exemplo.m; Exemplo.a] "M" =
               Ret (Some Exemplo.m)) by reflexivity.
  split; [exact Hr|].
  exact (busca_binaria_found_is_match _ _ _ Hr).
Defined.

Lemma busca_binaria_halves {L : StrLower} (l : list Insumo) (nome : string)
  (lo hi lo' hi' : Z) :
  (lo <= hi)%Z ->
  busca_binaria_body l nome lo hi = Ret (Continue lo' hi') ->
  (hi' - lo' + 1 <= (hi - lo + 1) / 2)%Z.
Proof.
  intros Hle Hbody. unfold busca_binaria_body in Hbody.
  destruct (getitem l ((lo + hi) / 2)) as [item|e]; cbn [bind] in Hbody;
    [|discriminate].
  destruct (String.eqb _ _); [discriminate|].
  pose proof (Z.div_mod (lo + hi) 2 ltac:(lia)) as Hdm.
  pose proof (Z.mod_pos_bound (lo + hi) 2 ltac:(lia)) as Hmod.
  apply Z.div_le_lower_bound; [lia|].
  destruct (String.ltb _ _); injection Hbody as <- <-; lia.
Qed.

(** The loop started on an interval of fewer than [2 ^ n] indices ends
    within [n] passes. *)
Lemma busca_binaria_passes_enough {L : StrLower} (l : list Insumo)
  (nome : string) :
  forall n lo hi,
    (hi - lo + 1 < 2 ^ Z.of_nat n)%Z ->
    busca_binaria_passes n l nome lo hi =
    Some (busca_binaria_loop l nome lo hi).
Proof.
  induction n as [|n IH]; intros lo hi Hsize;
    rewrite busca_binaria_loop_eq; cbn [busca_binaria_passes];
    destruct (Z.leb_spec lo hi) as [Hle|Hgt]; try reflexivity.
  - cbn in Hsize. lia.
  - destruct (busca_binaria_body l nome lo hi) as [[r|lo' hi']|e] eqn:Hbody;
      try reflexivity.
    apply IH.
    pose proof (busca_binaria_halves l nome lo hi lo' hi' Hle Hbody) as Hh.
    rewrite Nat2Z.inj_succ, Z.pow_succ_r in Hsize by lia.
    assert (((hi - lo + 1) / 2 < 2 ^ Z.of_nat n)%Z)
      by (apply Z.div_lt_upper_bound; lia).
    lia.
Qed.

(** X8. A pass of the loop of [busca_binaria] that goes on leaves an
    interval of at most half the size, and the number of passes is
    logarithmic in the length: on a list of [len] records the loop ends
    within [floor (log2 len) + 1] passes through its body, sorted or not. *)
Theorem busca_binaria_log_passes {L : StrLower} (l : list Insumo)
  (nome : string) :
  (forall lo hi lo' hi',
      (lo <= hi)%Z ->
      busca_binaria_body l (lower nome) lo hi = Ret (Continue lo' hi') ->
      (hi' - lo' + 1 <= (hi - lo + 1) / 2)%Z) /\
  (forall n lo hi,
      (hi - lo + 1 < 2 ^ Z.of_nat n)%Z ->
      busca_binaria_passes n l (lower nome) lo hi =
      Some (busca_binaria_loop l (lower nome) lo hi)) /\
  busca_binaria_passes (S (Nat.log2 (length l))) l (lower nome)
    0 (Z.of_nat (length l) - 1) = Some (busca_binaria l nome).
Proof.
  split; [intros lo hi lo' hi'; apply busca_binaria_halves|].
  split; [apply busca_binaria_passes_enough|].
  unfold busca_binaria. apply busca_binaria_passes_enough.
  replace (Z.of_nat (length l) - 1 - 0 + 1)%Z with (Z.of_nat (length l))
    by lia.
  change 2%Z with (Z.of_nat 2). rewrite <- Nat2Z.inj_pow.
  apply Nat2Z.inj_lt.
  destruct (length l) as [|k] eqn:Hlen; [cbn; lia|].
  apply Nat.log2_spec. lia.
Qed.

(** Three records need two passes: one pass is not enough for a name that
    is not at the middle. *)
Example busca_binaria_passes_three :
  busca_binaria_passes 1 [Exemplo.a; Exemplo.m; Exemplo.x] "x" 0 2 = None /\
  busca_binaria_passes 2 [Exemplo.a; Exemplo.m; Exemplo.x] "x" 0 2 =
    Some (Ret (Some Exemplo.x)).
Proof. split; reflexivity. Qed.

(** X9. Looking up the name of a record of the list never misses:
    [busca_sequencial] returns a record of that name, and for the name of
    the first record it returns the first record itself. *)
Theorem busca_sequencial_finds_member {L : StrLower} :
  (forall x resto, busca_sequencial (x :: resto) (insumo x) = Some x) /\
  (forall l x, In x l ->
     exists r, busca_sequencial l (insumo x) = Some r /\
               In r l /\ coincide (insumo x) r).
Proof.
  split.
  - intros x resto. cbn. rewrite String.eqb_refl. reflexivity.
  - intros l x Hx.
    destruct (busca_sequencial l (insumo x)) as [r|] eqn:Hr.
    + exists r. split; [reflexivity|]. apply busca_sequencial_Some, Hr.
    + exfalso. rewrite busca_sequencial_None in Hr.
      apply (Hr x Hx). reflexivity.
Qed.

(** X10. Sorting by lowered name and then searching by binary search finds
    every name of the list: for a record [x] of [l], the search of its name
    in the list sorted by [merge_sort] or by [quick_sort] returns a record of
    [l] of that name. *)
Theorem sort_then_busca_binaria_finds {L : StrLower} (l : list Insumo)
  (x : Insumo) (rnd : Random) :
  In x l ->
  (exists r, busca_binaria (merge_sort chave_nome l) (insumo x) =
               Ret (Some r) /\
             In r l /\ coincide (insumo x) r) /\
  (exists r, busca_binaria (fst (quick_sort chave_nome l rnd)) (insumo x) =
               Ret (Some r) /\
             In r l /\ coincide (insumo x) r).
Proof.
  intros Hx.
  assert (Hgen : forall s, Permutation s l ->
            StronglySorted (key_ord chave_nome) s ->
            exists r, busca_binaria s (insumo x) = Ret (Some r) /\
                      In r l /\ coincide (insumo x) r).
  { intros s Hperm Hsorted.
    destruct (busca_binaria_result s (insumo x)) as (r & Hr & Hspec).
    destruct r as [item|].
    - exists item. split; [exact Hr|]. destruct Hspec as [Hin Hm].
      split; [eapply Permutation_in; eassumption | exact Hm].
    - exfalso. apply (Hspec Hsorted x); [|reflexivity].
      eapply Permutation_in; [symmetry; exact Hperm | exact Hx]. }
  split; apply Hgen.
  - apply merge_sort_perm.
  - apply merge_sort_sorted.
  - apply quick_sort_perm.
  - apply quick_sort_sorted.
Qed.

Lemma sort_then_busca_binaria_finds_witness :
  In Exemplo.x [Exemplo.x; Exemplo.a; Exemplo.m] /\
  exists r, busca_binaria
              (merge_sort chave_nome [Exemplo.x; Exemplo.a; Exemplo.m])
              (insumo Exemplo.x) = Ret (Some r) /\
            In r [Exemplo.x; Exemplo.a; Exemplo.m] /\
            coincide (insumo Exemplo.x) r.
Proof.
  assert (Hx : In Exemplo.x [Exemplo.x; Exemplo.a; Exemplo.m])
    by (left; reflexivity).
  split; [exact Hx|].
  exact (proj1 (sort_then_busca_binaria_finds
                  [Exemplo.x; Exemplo.a; Exemplo.m] Exemplo.x Exemplo.rnd
                  Hx)).
Defined.

Lemma NoDup_map_eq (f : Insumo -> string) (l : list Insumo) (a b : Insumo) :
  NoDup (map f l) -> In a l -> In b l -> f a = f b -> a = b.
Proof.
  induction l as [|z l IH]; cbn; intros Hnd Ha Hb Hf; [destruct Ha|].
  inversion Hnd as [|? ? Hz Hnd']; subst.
  destruct Ha as [<-|Ha], Hb as [<-|Hb]; auto.
  - elim Hz. rewrite Hf. apply in_map. exact Hb.
  - elim Hz. rewrite <- Hf. apply in_map. exact Ha.
Qed.

(** X11. On a list sorted by lowered name the two searches agree on whether
    the name is there; when no two records of the list have the same lowered
    name they return the same record. *)
Theorem searches_agree_on_sorted {L : StrLower} (l : list Insumo)
  (nome : string) :
  nao_decrescente chave_nome l ->
  (busca_binaria l nome = Ret None <-> busca_sequencial l nome = None) /\
  (NoDup (map chave_nome l) ->
   busca_binaria l nome = Ret (busca_sequencial l nome)).
Proof.
  intros Hsorted. apply nao_decrescente_strong in Hsorted.
  destruct (busca_binaria_result l nome) as (r & Hr & Hspec).
  rewrite Hr. split.
  - rewrite busca_sequencial_None. destruct r as [item|].
    + split; [discriminate|]. intros Hno.
      destruct Hspec as [Hin Hm]. elim (Hno item Hin Hm).
    + split; [intros _; exact (Hspec Hsorted) | reflexivity].
  - intros Hnd. f_equal. destruct r as [item|].
    + destruct Hspec as [Hin Hm].
      destruct (busca_sequencial l nome) as [item'|] eqn:Hseq.
      * apply busca_sequencial_Some in Hseq as [Hin' Hm'].
        f_equal. apply (NoDup_map_eq chave_nome l); try assumption.
        unfold chave_nome. unfold coincide in Hm, Hm'. congruence.
      * rewrite busca_sequencial_None in Hseq. elim (Hseq item Hin Hm).
    + symmetry. apply busca_sequencial_None. exact (Hspec Hsorted).
Qed.

Lemma searches_agree_on_sorted_witness :
  nao_decrescente chave_nome [Exemplo.a; Exemplo.m; Exemplo.x] /\
  NoDup (map chave_nome [Exemplo.a; Exemplo.m; Exemplo.x]) /\
  busca_binaria [Exemplo.a; Exemplo.m; Exemplo.x] "X" =
  Ret (busca_sequencial [Exemplo.a; Exemplo.m; Exemplo.x] "X").
Proof.
  assert (HS : nao_decrescente chave_nome [Exemplo.a; Exemplo.m; Exemplo.x])
    by (repeat constructor).
  assert (HN : NoDup (map chave_nome [Exemplo.a; Exemplo.m; Exemplo.x])).
  { repeat constructor; cbn; intuition discriminate. }
  split; [exact HS|]. split; [exact HN|].
  exact (proj2 (searches_agree_on_sorted
                  [Exemplo.a; Exemplo.m; Exemplo.x] "X" HS) HN).
Defined.

(** ** Sorting *)

(** X12. [_merge] returns the elements of its two lists, no more and no
    fewer, whatever their order; when one list is empty it returns the
    other; and when both lists are sorted the result is sorted. *)
Theorem _merge_sorted_permutation {K : Type} `{HT : KeyTotal K}
  (key : Insumo -> K) (a b : list Insumo) :
  Permutation (_merge key a b) (a ++ b) /\
  length (_merge key a b) = length a + length b /\
  _merge key [] b = b /\
  _merge key a [] = a /\
  (nao_decrescente key a -> nao_decrescente key b ->
   nao_decrescente key (_merge key a b)).
Proof.
  split; [apply _merge_perm|].
  split; [rewrite <- length_app; apply Permutation_length, _merge_perm|].
  split; [apply _merge_nil_l|].
  split; [apply _merge_nil_r|].
  intros Ha Hb. apply nao_decrescente_strong.
  apply _merge_sorted; apply nao_decrescente_strong; assumption.
Qed.

Lemma _merge_sorted_permutation_witness :
  KeyTotal Z /\
  Permutation (_merge quantidade [Exemplo.a; Exemplo.x] [Exemplo.m])
              ([Exemplo.a; Exemplo.x] ++ [Exemplo.m]) /\
  nao_decrescente quantidade
    (_merge quantidade [Exemplo.a; Exemplo.x] [Exemplo.m]).
Proof.
  split; [exact Z_KeyTotal|].
  pose proof (_merge_sorted_permutation quantidade
                [Exemplo.a; Exemplo.x] [Exemplo.m]) as Hm.
  split; [exact (proj1 Hm)|].
  apply (proj2 (proj2 (proj2 (proj2 Hm)))); repeat constructor.
Defined.

Lemma StronglySorted_app_cross (R : Insumo -> Insumo -> Prop)
  (l1 l2 : list Insumo) :
  StronglySorted R (l1 ++ l2) ->
  forall a b, In a l1 -> In b l2 -> R a b.
Proof.
  induction l1 as [|x l1 IH]; cbn; intros Hs a b Ha Hb; [destruct Ha|].
  apply StronglySorted_inv in Hs as [Hs Hx].
  destruct Ha as [<-|Ha].
  - rewrite Forall_forall in Hx. apply Hx, in_or_app. right. exact Hb.
  - apply IH; assumption.
Qed.

(** X13. The first [k] elements of a sorted result are [k] elements of
    smallest key: every one of them has a key less than or equal to the key
    of every element after them.  This is what the slices [por_qtd[:5]] and
    [por_validade[:5]] rely on. *)
Theorem sorted_prefix_smallest {K : Type} `{HT : KeyTotal K}
  (key : Insumo -> K) (S : list Insumo) (rnd : Random) (k : nat) :
  (forall a b, In a (firstn k (merge_sort key S)) ->
               In b (skipn k (merge_sort key S)) ->
               key_le (key a) (key b) = true) /\
  (forall a b, In a (firstn k (fst (quick_sort key S rnd))) ->
               In b (skipn k (fst (quick_sort key S rnd))) ->
               key_le (key a) (key b) = true).
Proof.
  split; intros a b Ha Hb.
  - apply (StronglySorted_app_cross (key_ord key)
             (firstn k (merge_sort key S)) (skipn k (merge_sort key S)));
      [rewrite firstn_skipn; apply merge_sort_sorted | exact Ha | exact Hb].
  - apply (StronglySorted_app_cross (key_ord key)
             (firstn k (fst (quick_sort key S rnd)))
             (skipn k (fst (quick_sort key S rnd))));
      [rewrite firstn_skipn; apply quick_sort_sorted | exact Ha | exact Hb].
Qed.

Lemma sorted_prefix_smallest_witness :
  KeyTotal Z /\
  key_le (quantidade Exemplo.a) (quantidade Exemplo.x) = true.
Proof.
  split; [exact Z_KeyTotal|].
  apply (proj1 (sorted_prefix_smallest quantidade
                  [Exemplo.x; Exemplo.a; Exemplo.m] Exemplo.rnd 1)).
  - left. reflexivity.
  - right. left. reflexivity.
Defined.

(** X14. Sorting a sorted result again changes nothing, with either sort
    after either sort. *)
Theorem sort_twice {K : Type} `{HT : KeyTotal K}
  (key : Insumo -> K) (S : list Insumo) (r1 r2 : Random) :
  merge_sort key (merge_sort key S) = merge_sort key S /\
  fst (quick_sort key (fst (quick_sort key S r1)) r2) =
    fst (quick_sort key S r1) /\
  merge_sort key (fst (quick_sort key S r1)) = fst (quick_sort key S r1) /\
  fst (quick_sort key (merge_sort key S) r2) = merge_sort key S.
Proof.
  repeat split; apply (sorted_stable_unique key);
    try apply merge_sort_sorted; try apply quick_sort_sorted;
    intros v; (apply merge_sort_com_chave || apply quick_sort_com_chave).
Qed.

Lemma sort_twice_witness :
  KeyTotal Z /\
  merge_sort quantidade
    (merge_sort quantidade [Exemplo.x; Exemplo.a; Exemplo.m]) =
  merge_sort quantidade [Exemplo.x; Exemplo.a; Exemplo.m].
Proof.
  split; [exact Z_KeyTotal|].
  exact (proj1 (sort_twice quantidade [Exemplo.x; Exemplo.a; Exemplo.m]
                  Exemplo.rnd Exemplo.rnd)).
Defined.

Section MoreSortingFacts.
Context {K : Type} `{HT : KeyTotal K}.
Variable key : Insumo -> K.

Lemma partition_lengths (p : Insumo) (itens : list Insumo) :
  In p itens ->
  length (menores key (key p) itens) + length (maiores key (key p) itens)
  < length itens.
Proof.
  intros Hin.
  pose proof (Permutation_length (partition_perm key (key p) itens)) as Hlen.
  rewrite !length_app in Hlen.
  assert (Hi : In p (iguais key (key p) itens)).
  { apply filter_In. split; [exact Hin|].
    rewrite key_eq_spec, key_le_refl. reflexivity. }
  destruct (iguais key (key p) itens); [destruct Hi|]. cbn in Hlen. lia.
Qed.

Lemma quick_sort_cursor (itens : list Insumo) (rnd : Random) :
  tape (snd (quick_sort key itens rnd)) = tape rnd /\
  cursor rnd <= cursor (snd (quick_sort key itens rnd)) /\
  cursor (snd (quick_sort key itens rnd)) <= cursor rnd + (length itens - 1) /\
  (2 <= length itens -> cursor rnd < cursor (snd (quick_sort key itens rnd))).
Proof.
  revert rnd.
  induction itens as [itens IH] using (induction_ltof1 _ (@length Insumo)).
  unfold ltof in IH. intros rnd.
  destruct itens as [|x [|y t]].
  - simp quick_sort. cbn. repeat split; lia.
  - simp quick_sort. cbn. repeat split; lia.
  - rewrite quick_sort_step. cbn [snd].
    pose proof (choice_In rnd x (y :: t)) as Hin.
    pose proof (partition_lengths _ _ Hin) as Hlen.
    assert (Hs : tape (snd (choice rnd x (y :: t))) = tape rnd /\
                 cursor (snd (choice rnd x (y :: t))) = S (cursor rnd))
      by (split; reflexivity).
    destruct Hs as [Ht Hc].
    set (p := fst (choice rnd x (y :: t))) in *.
    set (rnd0 := snd (choice rnd x (y :: t))) in *.
    assert (Hm : length (menores key (key p) (x :: y :: t))
                 < length (x :: y :: t)) by lia.
    assert (Hg : length (maiores key (key p) (x :: y :: t))
                 < length (x :: y :: t)) by lia.
    destruct (IH _ Hm rnd0) as (Ht1 & Hlo1 & Hhi1 & _).
    set (rnd1 := snd (quick_sort key (menores key (key p) (x :: y :: t))
                        rnd0)) in *.
    destruct (IH _ Hg rnd1) as (Ht2 & Hlo2 & Hhi2 & _).
    repeat split; [congruence | lia | | lia].
    cbn [length] in *. lia.
Qed.

Lemma filter_perm (f : Insumo -> bool) (l l' : list Insumo) :
  Permutation l l' -> Permutation (filter f l) (filter f l').
Proof.
  induction 1 as [|x l l' _ IH|x y l|l l' l'' _ IH1 _ IH2]; cbn.
  - constructor.
  - destruct (f x); [constructor|]; exact IH.
  - destruct (f x), (f y); try reflexivity. constructor.
  - etransitivity; eassumption.
Qed.

Lemma perm_all_equal (l l' : list Insumo) :
  Permutation l l' ->
  (forall a b, In a l -> In b l -> a = b) ->
  l = l'.
Proof.
  intros Hperm Hall. destruct l as [|a l0] eqn:El.
  - symmetry. apply Permutation_nil. exact Hperm.
  - rewrite <- El in *.
    assert (Ha : In a l) by (rewrite El; left; reflexivity).
    assert (F1 : Forall (eq a) l).
    { apply Forall_forall. intros b Hb. apply Hall; assumption. }
    assert (F2 : Forall (eq a) l').
    { apply Forall_forall. intros b Hb. apply Hall; [exact Ha|].
      eapply Permutation_in; [symmetry; exact Hperm | exact Hb]. }
    rewrite (Forall_eq_repeat F1), (Forall_eq_repeat F2).
    rewrite (Permutation_length Hperm). reflexivity.
Qed.

Lemma com_chave_perm (v : K) (l l' : list Insumo) :
  Permutation l l' ->
  (forall a b, In a l -> In b l ->
               key_eq (key a) (key b) = true -> a = b) ->
  com_chave key v l = com_chave key v l'.
Proof.
  intros Hperm Hdist. apply perm_all_equal.
  - apply filter_perm. exact Hperm.
  - intros a b Ha Hb.
    apply filter_In in Ha as [Ha Hav]. apply filter_In in Hb as [Hb Hbv].
    apply Hdist; [exact Ha | exact Hb|].
    apply (key_eq_trans _ v); [exact Hav|].
    rewrite key_eq_sym. exact Hbv.
Qed.

End MoreSortingFacts.

(** X15. [quick_sort] draws from the generator once for every call on a
    list of two or more elements: no draw for a list of at most one
    element, at least one otherwise, and never more than [len - 1]; the
    supply of the generator itself is left as it was. *)
Theorem quick_sort_draws {K : Type} `{HT : KeyTotal K}
  (key : Insumo -> K) (S : list Insumo) (rnd : Random) :
  tape (snd (quick_sort key S rnd)) = tape rnd /\
  cursor rnd <= cursor (snd (quick_sort key S rnd)) /\
  cursor (snd (quick_sort key S rnd)) <= cursor rnd + (length S - 1) /\
  (2 <= length S -> cursor rnd < cursor (snd (quick_sort key S rnd))).
Proof. apply quick_sort_cursor. Qed.

Lemma quick_sort_draws_witness :
  KeyTotal Z /\
  cursor (snd (quick_sort quantidade [Exemplo.x; Exemplo.a; Exemplo.m]
                 Exemplo.rnd)) <= cursor Exemplo.rnd + (3 - 1).
Proof.
  split; [exact Z_KeyTotal|].
  exact (proj1 (proj2 (proj2 (quick_sort_draws quantidade
                                [Exemplo.x; Exemplo.a; Exemplo.m]
                                Exemplo.rnd)))).
Defined.

(** X16. When records of equal key are equal records, the sorted result
    depends on the elements only, not on the order in which the input has
    them: two inputs that are permutations of each other give the same
    result, with either sort and any generators. *)
Theorem sort_canonical {K : Type} `{HT : KeyTotal K}
  (key : Insumo -> K) (S S' : list Insumo) (r r' : Random) :
  Permutation S S' ->
  (forall a b, In a S -> In b S -> key_eq (key a) (key b) = true -> a = b) ->
  merge_sort key S = merge_sort key S' /\
  fst (quick_sort key S r) = fst (quick_sort key S' r') /\
  fst (quick_sort key S r) = merge_sort key S'.
Proof.
  intros Hperm Hdist.
  pose proof (fun v => com_chave_perm key v S S' Hperm Hdist) as Hcc.
  repeat split; apply (sorted_stable_unique key);
    try apply merge_sort_sorted; try apply quick_sort_sorted;
    intros v;
    rewrite ?merge_sort_com_chave, ?quick_sort_com_chave; apply Hcc.
Qed.

Lemma sort_canonical_witness :
  KeyTotal Z /\
  merge_sort quantidade [Exemplo.x; Exemplo.a; Exemplo.m] =
  merge_sort quantidade [Exemplo.m; Exemplo.x; Exemplo.a].
Proof.
  split; [exact Z_KeyTotal|].
  refine (proj1 (sort_canonical quantidade
                   [Exemplo.x; Exemplo.a; Exemplo.m]
                   [Exemplo.m; Exemplo.x; Exemplo.a]
                   Exemplo.rnd Exemplo.rnd _ _)).
  - apply Permutation_sym.
    apply (perm_trans (perm_swap Exemplo.x Exemplo.m [Exemplo.a])).
    apply perm_skip. apply perm_swap.
  - intros a b [<-|[<-|[<-|[]]]] [<-|[<-|[<-|[]]]] Hk;
      (reflexivity || discriminate Hk).
Defined.

(** ** Simulated data *)

Lemma random_choice_cons {A : Type} (r : Random) (x : A) (l : list A) :
  exists e r', random_choice r (x :: l) = Ret (e, r') /\
               In e (x :: l) /\
               tape r' = tape r /\ cursor r' = S (cursor r).
Proof.
  unfold random_choice, randbelow.
  eexists _, _. split; [reflexivity|].
  split; [|split; reflexivity].
  apply nth_In. apply Nat.mod_upper_bound. discriminate.
Qed.

Lemma randint_range (r : Random) (a b : Z) :
  (a <= b)%Z ->
  (a <= fst (randint r a b) <= b)%Z /\
  tape (snd (randint r a b)) = tape r /\
  cursor (snd (randint r a b)) = S (cursor r).
Proof.
  intros Hab. unfold randint, randbelow. cbn [fst snd].
  split; [|split; reflexivity].
  pose proof (Nat.mod_upper_bound (tape r (cursor r))
                (Z.to_nat (b - a + 1)) ltac:(lia)) as Hlt.
  lia.
Qed.

Lemma gerar_loop_spec (n : nat) (hoje : datetime) :
  forall rnd itens,
  exists novos rnd',
    gerar_loop n hoje rnd itens = Ret (itens ++ novos, rnd') /\
    length novos = n /\
    tape rnd' = tape rnd /\
    cursor rnd' = cursor rnd + 4 * n /\
    Forall (insumo_gerado hoje) novos.
Proof.
  induction n as [|n IH]; intros rnd itens.
  - exists [], rnd. cbn. rewrite app_nil_r.
    repeat split; (reflexivity || lia || constructor).
  - cbn [gerar_loop]. unfold INSUMOS at 1.
    match goal with
    | |- context [random_choice rnd (?x :: ?l)] =>
        destruct (random_choice_cons rnd x l)
          as (nm & r1 & -> & Hnome & Ht1 & Hc1)
    end.
    cbn [bind fst snd]. unfold EXAMES at 1.
    match goal with
    | |- context [random_choice r1 (?x :: ?l)] =>
        destruct (random_choice_cons r1 x l)
          as (ex & r2 & -> & Hexame & Ht2 & Hc2)
    end.
    cbn [bind fst snd].
    destruct (randint_range r2 1 200 ltac:(lia)) as (Hq & Ht3 & Hc3).
    destruct (randint_range (snd (randint r2 1 200)) 0 365 ltac:(lia))
      as (Hd & Ht4 & Hc4).
    set (q := randint r2 1 200) in *.
    set (d := randint (snd q) 0 365) in *.
    destruct (IH (snd d)
                (itens ++ [mkInsumo nm (fst q) ex
                             (Some (hoje + timedelta_days (fst d))%Z)]))
      as (novos & rnd' & -> & Hlen & Ht & Hc & Hall).
    eexists (_ :: novos), rnd'. rewrite <- app_assoc. cbn [app].
    split; [reflexivity|].
    split; [cbn; lia|].
    split; [congruence|].
    split; [lia|].
    constructor; [|exact Hall].
    unfold insumo_gerado. cbn [insumo exame quantidade validade].
    split; [exact Hnome|]. split; [exact Hexame|]. split; [lia|].
    exists (fst d). split; [lia | reflexivity].
Qed.

Lemma gerar_loop_add (n k : nat) (hoje : datetime) :
  forall rnd itens,
    gerar_loop (n + k) hoje rnd itens =
    r <- gerar_loop n hoje rnd itens ;; gerar_loop k hoje (snd r) (fst r).
Proof.
  induction n as [|n IH]; intros rnd itens; [reflexivity|].
  cbn [Nat.add gerar_loop].
  destruct (random_choice rnd INSUMOS) as [nome|e]; [|reflexivity].
  cbn [bind].
  destruct (random_choice (snd nome) EXAMES) as [exame|e]; [|reflexivity].
  cbn [bind]. apply IH.
Qed.

(** X17. [gerar_lote_insumos] raises nothing and returns exactly [qtd]
    records, none for [qtd <= 0]; it draws four numbers for each record
    from the generator installed for the seed. *)
Theorem gerar_lote_insumos_length (random_seed : Z -> Random)
  (qtd seed : Z) (hoje : datetime) :
  exists itens rnd',
    gerar_lote_insumos random_seed qtd seed hoje = Ret (itens, rnd') /\
    length itens = Z.to_nat qtd /\
    (qtd <= 0 -> itens = [])%Z /\
    tape rnd' = tape (random_seed seed) /\
    cursor rnd' = cursor (random_seed seed) + 4 * Z.to_nat qtd.
Proof.
  unfold gerar_lote_insumos.
  destruct (gerar_loop_spec (Z.to_nat qtd) hoje (random_seed seed) [])
    as (novos & rnd' & Hrun & Hlen & Ht & Hc & _).
  exists novos, rnd'. cbn [app] in Hrun.
  repeat split; try assumption.
  intros Hq. destruct novos; [reflexivity|]. cbn in Hlen. lia.
Qed.

(** X18. Every record that [gerar_lote_insumos] returns has a name of
    [INSUMOS], an exam of [EXAMES], a quantity from 1 to 200 and an expiry
    date from the day of the call to 365 days after it; so every record has
    an expiry date and the selection [if i.validade] keeps the whole
    list. *)
Theorem gerar_lote_insumos_ranges (random_seed : Z -> Random)
  (qtd seed : Z) (hoje : datetime) (itens : list Insumo) (rnd' : Random) :
  gerar_lote_insumos random_seed qtd seed hoje = Ret (itens, rnd') ->
  Forall (insumo_gerado hoje) itens /\
  filter tem_validade itens = itens.
Proof.
  unfold gerar_lote_insumos. intros Hrun.
  destruct (gerar_loop_spec (Z.to_nat qtd) hoje (random_seed seed) [])
    as (novos & r & Hrun' & _ & _ & _ & Hall).
  rewrite Hrun in Hrun'. cbn [app] in Hrun'. injection Hrun' as -> _.
  split; [exact Hall|].
  apply forallb_filter_id. apply forallb_forall. intros i Hi.
  rewrite Forall_forall in Hall.
  destruct (Hall i Hi) as (_ & _ & _ & d & _ & Hv).
  unfold tem_validade. rewrite Hv. reflexivity.
Qed.

Lemma gerar_lote_insumos_ranges_witness :
  exists itens rnd',
    gerar_lote_insumos (fun s => mkRandom (fun n => n * 7 + Z.to_nat s) 0)
      3%Z 42%Z 1000%Z = Ret (itens, rnd') /\
    Forall (insumo_gerado 1000%Z) itens /\
    filter tem_validade itens = itens.
Proof.
  eexists _, _. split; [lazy; reflexivity|].
  refine (gerar_lote_insumos_ranges
            (fun s => mkRandom (fun n => n * 7 + Z.to_nat s) 0)
            3%Z 42%Z 1000%Z _ _ _).
  lazy. reflexivity.
Defined.

Lemma adiar_zero (i : Insumo) : adiar 0 i = i.
Proof.
  destruct i as [n q e [v|]]; unfold adiar; cbn; [|reflexivity].
  rewrite Z.add_0_r. reflexivity.
Qed.

(** The same draws on another day give the same records with the expiry
    dates moved by the time between the two days. *)
Lemma gerar_loop_adiar (n : nat) (hoje hoje' : datetime) :
  forall rnd itens,
    gerar_loop n hoje' rnd (map (adiar (hoje' - hoje)) itens) =
    r <- gerar_loop n hoje rnd itens ;;
    Ret (map (adiar (hoje' - hoje)) (fst r), snd r).
Proof.
  induction n as [|n IH]; intros rnd itens; [reflexivity|].
  cbn [gerar_loop].
  destruct (random_choice rnd INSUMOS) as [nm|e]; [|reflexivity].
  cbn [bind].
  destruct (random_choice (snd nm) EXAMES) as [ex|e]; [|reflexivity].
  cbn [bind]. rewrite <- IH. f_equal.
  rewrite map_app. cbn [map]. f_equal. f_equal.
  unfold adiar. cbn [insumo quantidade exame validade option_map].
  do 2 f_equal. lia.
Qed.

(** X19. With the same seed, a longer batch starts with the shorter one,
    whenever the two calls are made: the first [qtd] records of a batch of
    [qtd'] records, [qtd <= qtd'], are the records of the batch of [qtd]
    records with their expiry dates moved by the time between the two
    readings of [datetime.today()]; when the two readings are the same the
    shorter batch is a prefix of the longer. *)
Theorem gerar_lote_insumos_prefix (random_seed : Z -> Random)
  (qtd qtd' seed : Z) (hoje hoje' : datetime)
  (itens itens' : list Insumo) (rnd rnd' : Random) :
  (qtd <= qtd')%Z ->
  gerar_lote_insumos random_seed qtd seed hoje = Ret (itens, rnd) ->
  gerar_lote_insumos random_seed qtd' seed hoje' = Ret (itens', rnd') ->
  firstn (Z.to_nat qtd) itens' = map (adiar (hoje' - hoje)) itens /\
  (hoje' = hoje -> exists resto, itens' = itens ++ resto).
Proof.
  unfold gerar_lote_insumos. intros Hle Hrun Hrun'.
  replace (Z.to_nat qtd') with (Z.to_nat qtd + (Z.to_nat qtd' - Z.to_nat qtd))
    in Hrun' by lia.
  rewrite gerar_loop_add in Hrun'.
  change (@nil Insumo) with (map (adiar (hoje' - hoje)) []) in Hrun'.
  rewrite gerar_loop_adiar, Hrun in Hrun'. cbn [bind fst snd] in Hrun'.
  destruct (gerar_loop_spec (Z.to_nat qtd) hoje (random_seed seed) [])
    as (l0 & r0 & Hrun0 & Hlen & _).
  rewrite Hrun in Hrun0. cbn [app] in Hrun0. injection Hrun0 as <- _.
  destruct (gerar_loop_spec (Z.to_nat qtd' - Z.to_nat qtd) hoje' rnd
              (map (adiar (hoje' - hoje)) itens))
    as (resto & r1 & Hrun1 & _).
  rewrite Hrun' in Hrun1. injection Hrun1 as -> _.
  split.
  - rewrite <- Hlen, <- (length_map (adiar (hoje' - hoje)) itens).
    rewrite firstn_app, firstn_all, Nat.sub_diag. cbn.
    rewrite app_nil_r. reflexivity.
  - intros ->. exists resto. rewrite Z.sub_diag.
    rewrite (map_ext _ (fun i => i) adiar_zero), map_id. reflexivity.
Qed.

Lemma gerar_lote_insumos_prefix_witness :
  exists itens rnd itens' rnd',
    (2 <= 3)%Z /\
    gerar_lote_insumos (fun s => mkRandom (fun n => n * 7 + Z.to_nat s) 0)
      2%Z 42%Z 1000%Z = Ret (itens, rnd) /\
    gerar_lote_insumos (fun s => mkRandom (fun n => n * 7 + Z.to_nat s) 0)
      3%Z 42%Z 5000%Z = Ret (itens', rnd') /\
    firstn (Z.to_nat 2) itens' = map (adiar (5000 - 1000)) itens.
Proof.
  eexists _, _, _, _.
  split; [lia|]. split; [lazy; reflexivity|]. split; [lazy; reflexivity|].
  refine (proj1 (gerar_lote_insumos_prefix
                   (fun s => mkRandom (fun n => n * 7 + Z.to_nat s) 0)
                   2%Z 3%Z 42%Z 1000%Z 5000%Z _ _ _ _ _ _ _));
    [lia | lazy; reflexivity | lazy; reflexivity].
Defined.

(** ** Length and iteration of the containers *)

(** X20. Registering records one after the other adds one to the length for
    each of them, and the iteration of the queue, like that of the stack,
    shows the entries held before followed by the new ones in the order in
    which they were put. *)
Theorem containers_len_iter :
  (forall f es,
      FilaConsumo.len (FilaConsumo.registrar_todos f es) =
        FilaConsumo.len f + length es /\
      FilaConsumo.iter (FilaConsumo.registrar_todos f es) =
        FilaConsumo.iter f ++ es) /\
  (forall p es,
      PilhaConsultas.len (PilhaConsultas.consultar_todos p es) =
        PilhaConsultas.len p + length es /\
      PilhaConsultas.iter (PilhaConsultas.consultar_todos p es) =
        PilhaConsultas.iter p ++ es).
Proof.
  split.
  - intros f es. rewrite registrar_todos_q.
    unfold FilaConsumo.len, FilaConsumo.iter. cbn.
    split; [apply length_app | reflexivity].
  - intros p es. rewrite consultar_todos_stack.
    unfold PilhaConsultas.len, PilhaConsultas.iter. cbn.
    split; [apply length_app | reflexivity].
Qed.
